(** * Redex register allocator: the interference graph data model

    A shallow embedding of [opt/regalloc/Interference.h]: the insertion-ordered
    [RangeSet], the per-register [Node], and the interference [Graph] with its
    edge queries, followed by the properties the specification states about
    them.

    Conventions of the embedding.
    - [reg_t] is [uint16_t]; register ids are modelled as [N].  The header
      performs no arithmetic on register ids (only [min], [max] and equality),
      so no wrap-around occurs on them; every statement below is proved for
      all of [N] and so in particular for the ids below [2^16].
    - [IRInstruction*] is a pointer used only for its identity; it is
      modelled as an address in [N].
    - [std::unordered_map] is a [gmap], [std::unordered_set] a [gset],
      [std::vector] a [list] ([emplace_back]/[push_back] append at the end).
    - A call that throws ([std::unordered_map::at] on a missing key) or
      aborts is modelled as [None]. *)

From Stdlib Require Import ZArith NArith Lia Ascii.
From stdpp Require Import base option numbers list sorting gmap sets fin_maps fin_sets.
From stdpp Require Import strings pretty.

Local Open Scope N_scope.

(** [using reg_t = uint16_t;] *)
Definition reg_t : Type := N.

(** [const IRInstruction*], compared by address. *)
Definition insn_ptr : Type := N.

(* ===================================================================== *)
(** ** RangeSet *)
(* ===================================================================== *)

Module RangeSet.

(** [class RangeSet]: a vector keeping the insertion order and a hash set
    for the membership test. *)
Record t : Type := mk {
  m_range_vec : list insn_ptr;
  m_range_set : gset insn_ptr
}.

(** The default-constructed [RangeSet]. *)
Definition empty : t := {| m_range_vec := []; m_range_set := ∅ |}.

(** [bool contains(const IRInstruction* insn) const] *)
Definition contains (insn : insn_ptr) (rs : t) : bool :=
  bool_decide (insn ∈ m_range_set rs).

(** [void emplace(const IRInstruction* insn)] *)
Definition emplace (insn : insn_ptr) (rs : t) : t :=
  if contains insn rs then rs
  else {| m_range_vec := m_range_vec rs ++ [insn];
          m_range_set := {[insn]} ∪ m_range_set rs |}.

(** [begin()] .. [end()]: iteration walks [m_range_vec]. *)
Definition iteration (rs : t) : list insn_ptr := m_range_vec rs.

(** [size_t size() const] *)
Definition size (rs : t) : nat := length (m_range_vec rs).

(** A run of [emplace] calls, in program order, on a given set. *)
Definition emplace_all (insns : list insn_ptr) (rs : t) : t :=
  foldl (λ acc i, emplace i acc) rs insns.

(** Position of the first occurrence of [x] in a call sequence. *)
Definition first_index (x : insn_ptr) (l : list insn_ptr) : option nat :=
  fst <$> list_find (λ y, y = x) l.

(** [x] entered the call sequence before [y] did. *)
Definition inserted_before (calls : list insn_ptr) (x y : insn_ptr) : Prop :=
  ∃ a b, first_index x calls = Some a ∧ first_index y calls = Some b ∧ (a < b)%nat.

(** The representation invariant: the hash set holds exactly the elements
    of the vector, and the vector has no repetition. *)
Definition consistent (rs : t) : Prop :=
  NoDup (m_range_vec rs) ∧ ∀ x, x ∈ m_range_set rs ↔ x ∈ m_range_vec rs.

End RangeSet.


(* ===================================================================== *)
(** ** namespace interference::impl *)
(* ===================================================================== *)

Module impl.

(** [template <typename T> struct OrderedPair], at [T = reg_t]. *)
Record OrderedPair : Type := mkOrderedPair {
  first : reg_t;
  second : reg_t
}.

(** The constructor [OrderedPair(T u, T v)]: the pair is stored smaller
    component first. *)
Definition OrderedPair_new (u v : reg_t) : OrderedPair :=
  {| first := N.min u v; second := N.max u v |}.

(** [bool operator==(const OrderedPair& that) const] as the test it is. *)
Definition OrderedPair_eqb (p q : OrderedPair) : bool :=
  (first p =? first q) && (second p =? second q).

(** [operator==] compares both components; on a record this is equality. *)
#[global] Instance OrderedPair_eq_dec : EqDecision OrderedPair.
Proof. solve_decision. Defined.

(** The hash of the C++ code only serves to key the hash map; here the keys
    are counted through their two components. *)
#[global] Instance OrderedPair_countable : Countable OrderedPair.
Proof.
  refine (inj_countable' (λ p, (first p, second p))
                         (λ q, mkOrderedPair q.1 q.2) _).
  by intros [].
Defined.

(** 32-bit unsigned wrap-around. *)
Definition wrap32 (x : Z) : Z := (x mod 2 ^ 32)%Z.

(** [inline uint32_t div_ceil(uint32_t a, uint32_t b) { return (a + b - 1) / b; }]
    on values in [0, 2^32); the sum and the difference wrap.  Division by
    zero is undefined in C++; [Z.div] then gives 0. *)
Definition div_ceil (a b : Z) : Z :=
  (wrap32 (wrap32 (a + b) - 1) / b)%Z.

End impl.

(* ===================================================================== *)
(** ** Node *)
(* ===================================================================== *)

(** Modelled from the spec: [RegisterType] is declared in [RegisterType.h],
    which is not among the sources.  The specification (section 3) lists the
    elements UNKNOWN, ZERO, NORMAL, OBJECT and CONFLICT of the type lattice;
    only UNKNOWN is referred to by the header. *)
Inductive RegisterType : Type := UNKNOWN | ZERO | NORMAL | OBJECT | CONFLICT.

(** Modelled from the spec: [RegisterTypeDomain] (also from the missing
    headers) wraps one lattice element, read back with [element()]. *)
Record RegisterTypeDomain : Type := mkRegisterTypeDomain {
  element : RegisterType
}.

(** Modelled from the spec: [max_unsigned_value] is defined outside the
    available sources; by its name and its use for [m_max_vreg] it is the
    largest unsigned value representable in the given number of bits. *)
Definition max_unsigned_value (bits : N) : N := 2 ^ bits - 1.

(** Conversion of an integer value to [reg_t] ([uint16_t]). *)
Definition to_reg_t (x : N) : reg_t := x mod 2 ^ 16.

Module Node.

(** [enum Property { PARAM, RANGE, SPILL, ACTIVE, PROPS_SIZE }] *)
Inductive Property : Type := PARAM | RANGE | SPILL | ACTIVE.

(** The enumerator values, used as bit positions of [std::bitset]. *)
Definition bit (p : Property) : N :=
  match p with PARAM => 0 | RANGE => 1 | SPILL => 2 | ACTIVE => 3 end.

Definition PROPS_SIZE : N := 4.

(** [class Node]; [m_props] is the [std::bitset<PROPS_SIZE>] as a number. *)
Record t : Type := mk {
  m_weight : N;
  m_max_vreg : reg_t;
  m_width : N;
  m_props : N;
  m_type_domain : RegisterTypeDomain;
  m_adjacent : list reg_t
}.

(** [m_props.set(p)], [m_props.reset(p)] and [m_props[p]]. *)
Definition set (p : Property) (n : t) : t :=
  mk (m_weight n) (m_max_vreg n) (m_width n) (N.setbit (m_props n) (bit p))
     (m_type_domain n) (m_adjacent n).

Definition reset (p : Property) (n : t) : t :=
  mk (m_weight n) (m_max_vreg n) (m_width n) (N.clearbit (m_props n) (bit p))
     (m_type_domain n) (m_adjacent n).

Definition test (p : Property) (n : t) : bool := N.testbit (m_props n) (bit p).

(** The member initialisers of the class: weight 0, [max_unsigned_value(16)],
    width 0, an all-zero bitset, the UNKNOWN type and no neighbour. *)
Definition initial : t :=
  {| m_weight := 0;
     m_max_vreg := to_reg_t (max_unsigned_value 16);
     m_width := 0;
     m_props := 0;
     m_type_domain := {| element := UNKNOWN |};
     m_adjacent := [] |}.

(** [Node() { m_props.set(ACTIVE); }] *)
Definition new : t := set ACTIVE initial.

Definition width (n : t) : N := m_width n.
Definition is_spilt (n : t) : bool := test SPILL n.
Definition is_active (n : t) : bool := test ACTIVE n.
Definition is_param (n : t) : bool := test PARAM n.
Definition is_range (n : t) : bool := test RANGE n.
Definition weight (n : t) : N := m_weight n.
Definition max_vreg (n : t) : reg_t := m_max_vreg n.
Definition type (n : t) : RegisterType := element (m_type_domain n).
Definition adjacent (n : t) : list reg_t := m_adjacent n.

(** Replacing the adjacency list, every other member kept. *)
Definition with_adjacent (l : list reg_t) (n : t) : t :=
  mk (m_weight n) (m_max_vreg n) (m_width n) (m_props n) (m_type_domain n) l.

End Node.

(* ===================================================================== *)
(** ** Graph *)
(* ===================================================================== *)

(** Modelled from the spec: [LivenessDomain] comes from [Liveness.h], which is
    not among the sources; section 6 of the specification describes it as a
    set-like domain of register ids. *)
Definition LivenessDomain : Type := gset reg_t.

Module Graph.

(** [using Edge = impl::OrderedPair<reg_t>;] with its constructor. *)
Definition Edge (u v : reg_t) : impl.OrderedPair := impl.OrderedPair_new u v.

(** [using ContainmentEdge = std::pair<reg_t, reg_t>;] *)
Definition ContainmentEdge (u v : reg_t) : reg_t * reg_t := (u, v).

(** [class Graph].  The value stored in [m_adj_matrix] is the
    not-coalesceable marker of the edge. *)
Record t : Type := mk {
  m_nodes : gmap reg_t Node.t;
  m_adj_matrix : gmap impl.OrderedPair bool;
  m_containment_graph : gset (reg_t * reg_t);
  m_range_liveness : gmap insn_ptr LivenessDomain
}.

(** [Graph() = default], handed out by [GraphBuilder::create_empty]. *)
Definition create_empty : t :=
  {| m_nodes := ∅; m_adj_matrix := ∅;
     m_containment_graph := ∅; m_range_liveness := ∅ |}.

Definition with_nodes (ns : gmap reg_t Node.t) (g : t) : t :=
  mk ns (m_adj_matrix g) (m_containment_graph g) (m_range_liveness g).

Definition with_containment (c : gset (reg_t * reg_t)) (g : t) : t :=
  mk (m_nodes g) (m_adj_matrix g) c (m_range_liveness g).

(** [nodes()] *)
Definition nodes (g : t) : gmap reg_t Node.t := m_nodes g.

(** [ActiveFilter::operator()] *)
Definition ActiveFilter (pair : reg_t * Node.t) : bool := Node.is_active pair.2.

(** [active_nodes()]: the node table seen through [ActiveFilter]. *)
Definition active_nodes (g : t) : gmap reg_t Node.t :=
  filter (λ pair, ActiveFilter pair = true) (m_nodes g).

(** [bool is_adjacent(reg_t u, reg_t v) const] *)
Definition is_adjacent (g : t) (u v : reg_t) : bool :=
  bool_decide (is_Some (m_adj_matrix g !! Edge u v)).

(** [bool is_coalesceable(reg_t u, reg_t v) const]:
    [!is_adjacent(u, v) || !m_adj_matrix.at(Edge(u, v))].  The right operand
    is evaluated only when the left one is false; [at] throws on a missing
    key. *)
Definition is_coalesceable (g : t) (u v : reg_t) : option bool :=
  if negb (is_adjacent g u v) then Some true
  else negb <$> m_adj_matrix g !! Edge u v.

(** [bool has_containment_edge(reg_t u, reg_t v) const] *)
Definition has_containment_edge (g : t) (u v : reg_t) : bool :=
  bool_decide (ContainmentEdge u v ∈ m_containment_graph g).

(** [const LivenessDomain& get_liveness(const IRInstruction* insn) const]:
    [m_range_liveness.at(insn)], which throws on a missing key. *)
Definition get_liveness (g : t) (insn : insn_ptr) : option LivenessDomain :=
  m_range_liveness g !! insn.

(** [void add_containment_edge(reg_t u, reg_t v)] *)
Definition add_containment_edge (g : t) (u v : reg_t) : t :=
  if bool_decide (u = v) then g
  else with_containment ({[ContainmentEdge u v]} ∪ m_containment_graph g) g.

(** An instruction is registered as range-eligible when the range-liveness
    table has an entry for it. *)
Definition registered (g : t) (insn : insn_ptr) : Prop :=
  insn ∈ dom (m_range_liveness g).

(** The stored not-coalesceable marker of the pair, [false] when the pair has
    no edge. *)
Definition not_coalesceable (g : t) (u v : reg_t) : bool :=
  default false (m_adj_matrix g !! Edge u v).

(** *** Mutators whose bodies are not in the header *)

(** Modelled from the spec: the deduplicated entry of a neighbour, used by
    [add_edge] below: [x] is appended to the adjacency list unless it is
    already listed. *)
Definition push_adjacent (x : reg_t) (n : Node.t) : Node.t :=
  if bool_decide (x ∈ Node.m_adjacent n) then n
  else Node.with_adjacent (Node.m_adjacent n ++ [x]) n.

(** Modelled from the spec: [Graph::add_edge(reg_t, reg_t, bool can_coalesce =
    false)] is declared in the header, its body is in the missing
    [Interference.cpp].  Following section 3 (an edge is one canonical pair
    with a not-coalesceable marker, each endpoint lists the other) and the
    rule stated for [combine] (neighbours are deduplicated, markers are
    combined by logical OR): both registers must have a node (an unregistered
    register is a failed lookup), each one is entered in the other's
    adjacency list unless already there, and the marker of the pair becomes
    the old marker OR [!can_coalesce].  The specification makes no exception
    for [u = v], and none is made here. *)
Definition add_edge (g : t) (u v : reg_t) (can_coalesce : bool) : option t :=
  _ ← m_nodes g !! u;
  _ ← m_nodes g !! v;
  Some {| m_nodes := alter (push_adjacent u) v
                       (alter (push_adjacent v) u (m_nodes g));
          m_adj_matrix := <[Edge u v := not_coalesceable g u v || negb can_coalesce]>
                            (m_adj_matrix g);
          m_containment_graph := m_containment_graph g;
          m_range_liveness := m_range_liveness g |}.

(** [void add_coalesceable_edge(reg_t u, reg_t v) { add_edge(u, v, true); }] *)
Definition add_coalesceable_edge (g : t) (u v : reg_t) : option t :=
  add_edge g u v true.

(** Modelled from the spec: the removal of a neighbour, used by
    [remove_node] below: every occurrence of [r] is taken out of the
    adjacency list. *)
Definition erase_adjacent (r : reg_t) (n : Node.t) : Node.t :=
  Node.with_adjacent (filter (λ x, x ≠ r) (Node.m_adjacent n)) n.

(** Modelled from the spec: [Graph::remove_node(reg_t)] is declared in the
    header, its body is in the missing [Interference.cpp].  Following section
    4.3: the register must have a node; ACTIVE is cleared on it, it is
    removed from the adjacency list of each of its neighbours (the registers
    its own list names), and its own record, adjacency list included, stays
    in the table.  Edges, containment edges and liveness are not mentioned by
    the specification and are left alone.  The idempotence the specification
    asks for is not built in by a test of the flag; it is a property of these
    steps, proved below. *)
Definition remove_node (g : t) (r : reg_t) : option t :=
  n ← m_nodes g !! r;
  let cleaned := foldr (λ w ns, alter (erase_adjacent r) w ns)
                       (m_nodes g) (Node.m_adjacent n) in
  Some (with_nodes (alter (Node.reset Node.ACTIVE) r cleaned) g).

(** Modelled from the spec: the repointing done by [combine] below, on one
    endpoint of a containment edge: [v] becomes [u], any other register
    stays. *)
Definition repoint (v u : reg_t) (x : reg_t) : reg_t :=
  if bool_decide (x = v) then u else x.

(** Modelled from the spec: the repointing done by [combine] below, on the
    whole relation: every containment edge is entered anew, with [v]
    redirected to [u], through [add_containment_edge] (which keeps the
    relation free of self-edges, as section 3 requires). *)
Definition repoint_containment (g : t) (v u : reg_t) : t :=
  foldr (λ e acc, add_containment_edge acc (repoint v u e.1) (repoint v u e.2))
        (with_containment ∅ g)
        (elements (m_containment_graph g)).

(** Modelled from the spec: one step of the neighbour loop of [combine]
    below: the edge [u]-[w] is added with the coalesceability of the edge
    [v]-[w], so that its marker is the OR of the two. *)
Definition combine_step (u v : reg_t) (acc : option t) (w : reg_t) : option t :=
  a ← acc;
  c ← is_coalesceable a v w;
  add_edge a u w c.

(** Modelled from the spec: the union of properties that [combine] below
    leaves on the merged node (section 8).  The properties of a node are the
    bits of [m_props], one per enumerator of [Property] (PARAM, RANGE, SPILL
    and ACTIVE); their union is the bitwise OR of the two bitsets.  No other
    member of the node changes. *)
Definition merge_props (nv nu : Node.t) : Node.t :=
  Node.mk (Node.m_weight nu) (Node.m_max_vreg nu) (Node.m_width nu)
          (N.lor (Node.m_props nu) (Node.m_props nv))
          (Node.m_type_domain nu) (Node.m_adjacent nu).

(** Modelled from the spec: [Graph::combine(reg_t u, reg_t v)] is declared in
    the header ("Combines v into u. Gives u all of v's neighbors and marks v
    as inactive."), its body is in the missing [Interference.cpp].
    Following section 4.3: both registers must have a node and
    [is_coalesceable(u, v)] must hold (a violated contract fails); every
    neighbour of [v], that is every register of its adjacency list, becomes
    a neighbour of [u] by [add_edge], whose marker is the OR of the two
    not-coalesceable markers; ACTIVE is cleared on [v]; the containment
    edges that mention [v] are repointed to [u].  Following section 8
    ([combine] "leaves exactly one active node carrying the union of
    properties"): [u] receives the union of the two nodes' properties
    before [v] is marked inactive. *)
Definition combine (g : t) (u v : reg_t) : option t :=
  _ ← m_nodes g !! u;
  nv ← m_nodes g !! v;
  ok ← is_coalesceable g u v;
  if ok : bool then
    g1 ← foldl (combine_step u v) (Some g) (Node.m_adjacent nv);
    let merged := alter (merge_props nv) u (m_nodes g1) in
    Some (repoint_containment
            (with_nodes (alter (Node.reset Node.ACTIVE) v merged) g1) v u)
  else None.

(** The mutators of [Graph], as data, and runs of them. *)
Inductive mutation : Type :=
  | AddEdge (u v : reg_t) (can_coalesce : bool)
  | AddContainmentEdge (u v : reg_t)
  | RemoveNode (r : reg_t)
  | Combine (u v : reg_t).

Definition apply (g : t) (op : mutation) : option t :=
  match op with
  | AddEdge u v c => add_edge g u v c
  | AddContainmentEdge u v => Some (add_containment_edge g u v)
  | RemoveNode r => remove_node g r
  | Combine u v => combine g u v
  end.

Fixpoint run (ops : list mutation) (g : t) : option t :=
  match ops with
  | [] => Some g
  | op :: rest => g' ← apply g op; run rest g'
  end.




(** What [add_edge u v] makes of the node [nw] of register [w]. *)
Definition node_after_add_edge (u v w : reg_t) (nw : Node.t) : Node.t :=
  let n1 := if bool_decide (w = u) then push_adjacent v nw else nw in
  if bool_decide (w = v) then push_adjacent u n1 else n1.

(** What [remove_node r] makes of the node [nw] of register [w], where [nr]
    is the node of [r] before the call. *)
Definition node_after_removal (r : reg_t) (nr : Node.t) (w : reg_t)
    (nw : Node.t) : Node.t :=
  let n1 := if bool_decide (w ∈ Node.m_adjacent nr)
            then erase_adjacent r nw else nw in
  if bool_decide (w = r) then Node.reset Node.ACTIVE n1 else n1.





(** The containment relation has no self-edge. *)
Definition containment_irreflexive (g : t) : Prop :=
  ∀ w, has_containment_edge g w w = false.


End Graph.


(* ===================================================================== *)
(** ** Sample data *)
(* ===================================================================== *)

Module Samples.
Import Graph.

(** A node table with a freshly constructed node for each register. *)
Definition fresh_nodes (rs : list reg_t) : gmap reg_t Node.t :=
  foldr (λ r m, <[r := Node.new]> m) ∅ rs.

Definition fresh_graph (rs : list reg_t) : t :=
  with_nodes (fresh_nodes rs) create_empty.

(** Four registers: a move between 0 and 1 (a coalesceable edge), a hard
    conflict between 1 and 2, coalesceable edges 0-2 and 1-3, and the
    containment edges 1 -> 2 and 3 -> 1. *)
Definition sample_ops : list mutation :=
  [AddEdge 0 1 true; AddEdge 1 2 false; AddEdge 0 2 true; AddEdge 1 3 true;
   AddContainmentEdge 1 2; AddContainmentEdge 3 1].

Definition sample : t :=
  default create_empty (run sample_ops (fresh_graph [0; 1; 2; 3])).



(** The sample graph with one instruction, at address 7, registered in the
    range-liveness table with the live-out set {1, 2}. *)
Definition sample_live : t :=
  mk (m_nodes sample) (m_adj_matrix sample) (m_containment_graph sample)
     {[ 7 := ({[1; 2]} : LivenessDomain) ]}.

(** The adjacency list of a register, empty when it has no node. *)
Definition adjacent_of (g : t) (r : reg_t) : list reg_t :=
  default [] (Node.adjacent <$> m_nodes g !! r).





(** Two fresh registers, register 0 removed, then [combine 0 1]. *)
(** Register 1 is a parameter; [combine 0 1]. *)
Definition param_ops : list mutation := [AddEdge 0 1 true; Combine 0 1].

Definition with_param : t :=
  with_nodes (<[1 := Node.set Node.PARAM Node.new]> (fresh_nodes [0; 1]))
             create_empty.

End Samples.

(* ===================================================================== *)
(** ** PassManager *)
(* ===================================================================== *)

(** A shallow embedding of [libredex/PassManager.cpp].

    - A [Pass*] is an address; what the code asks of a pass ([name()],
      [configure_pass], [eval_pass], [run_pass]) is supplied by an
      environment.  A pass reaches the manager through [incr_metric],
      [set_metric] and [get_metric] only, which act on the metrics of the
      current pass; so the environment gives, for each pass, what its
      [eval_pass] and its [run_pass] make of these metrics.
    - The calls into code outside this file are recorded, in the order they
      are made, in a log kept beside the members of the class.  [TRACE] and
      [Timer] are diagnostics and are not recorded.
    - Of the JSON configuration the members this file reads are kept:
      ["redex"]["passes"] and ["ir_type_checker"] with its three settings; a
      member is [None] when absent.
    - [always_assert_log], [at] on a missing key, a null pointer followed
      and [exit] end the run with a [failure].
    - Metric values are [int], 32 bits wide.  A sum that leaves the range of
      [int] is reduced to it in two's complement ([wrap_int]): signed
      overflow is undefined in C++, and this is what the usual targets
      compute. *)

Module PassManager.

(** [Pass*] *)
Definition pass_ptr : Type := N.

(** The calls made to code outside the file. *)
Inductive event : Type :=
  | ConfigurePass (p : pass_ptr) (key : string)
  | BuildClassScope
  | InitReachableClasses
  | ProcessProguardRules
  | PrintSeeds (file : string) (flags : option (bool * bool))
  | ShowConfiguration (file : string)
  | PrintClasses (file : string)
  | AlertSeeds
  | EvalPass (p : pass_ptr)
  | RunPass (p : pass_ptr)
  | TypeCheck (verify_moves : bool).

(** How a call of the class can end other than by returning. *)
Inductive failure : Type :=
  | AssertFailed (msg : string)
  | OutOfRange
  | NullDereference
  | ExitFailure (log : list event).

Inductive result (A : Type) : Type :=
  | Ok (a : A)
  | Fail (f : failure).
Arguments Ok {A} a.
Arguments Fail {A} f.

#[global] Instance result_ret : MRet result := λ A a, Ok a.
#[global] Instance result_bind : MBind result :=
  λ A B f r, match r with Ok a => f a | Fail e => Fail e end.

(** The members of [PassManager::PassInfo], as this file assigns them. *)
Module PassInfo.
Record t : Type := mk {
  pass : option pass_ptr;
  order : nat;
  repeat : nat;
  total_repeat : nat;
  name : string;
  metrics : gmap string Z
}.

(** A value-initialised element, as [resize] makes them. *)
Definition initial : t := mk None 0 0 0 "" ∅.

Definition with_metrics (m : gmap string Z) (info : t) : t :=
  mk (pass info) (order info) (repeat info) (total_repeat info) (name info) m.
End PassInfo.

(** The members of [config["ir_type_checker"]] that are read. *)
Record TypeCheckerArgs : Type := mkTypeCheckerArgs {
  run_after_each_pass : option bool;
  verify_moves : option bool;
  run_after_passes : list string
}.

(** The members of the JSON configuration that are read. *)
Record Config : Type := mkConfig {
  redex_passes : option (list string);
  ir_type_checker : option TypeCheckerArgs
}.

(** [m_config.isMember("ir_type_checker")] *)
Definition type_checker_enabled (c : Config) : bool :=
  bool_decide (is_Some (ir_type_checker c)).

(** [type_checker_args.get("run_after_each_pass", false).asBool()] *)
Definition arg_run_after_each_pass (c : Config) : bool :=
  default false (ir_type_checker c ≫= run_after_each_pass).

(** [type_checker_args.get("verify_moves", false).asBool()] *)
Definition arg_verify_moves (c : Config) : bool :=
  default false (ir_type_checker c ≫= verify_moves).

(** The names inserted into [trigger_passes]. *)
Definition trigger_passes (c : Config) : list string :=
  default [] (run_after_passes <$> ir_type_checker c).

(** [class PassManager] with the log of outside calls. *)
Record t : Type := mk {
  m_config : Config;
  m_registered_passes : list pass_ptr;
  m_activated_passes : list pass_ptr;
  m_pass_info : list PassInfo.t;
  m_current_pass_info : option nat;
  m_testing_mode : bool;
  m_verify_none_mode : bool;
  calls : list event
}.

(** What the code outside the file contributes. *)
Record Env : Type := mkEnv {
  pass_name : pass_ptr → string;
  eval_pass : pass_ptr → t → gmap string Z → gmap string Z;
  run_pass : pass_ptr → t → gmap string Z → gmap string Z;
  checker_fail : list event → bool;
  INTERDEX_PASS_NAME : string;
  seeds_file_env : option string;
  printseeds : string
}.

Definition with_activated (ps : list pass_ptr) (s : t) : t :=
  mk (m_config s) (m_registered_passes s) ps (m_pass_info s)
     (m_current_pass_info s) (m_testing_mode s) (m_verify_none_mode s) (calls s).

Definition with_config (c : Config) (s : t) : t :=
  mk c (m_registered_passes s) (m_activated_passes s) (m_pass_info s)
     (m_current_pass_info s) (m_testing_mode s) (m_verify_none_mode s) (calls s).

Definition with_pass_info (infos : list PassInfo.t) (s : t) : t :=
  mk (m_config s) (m_registered_passes s) (m_activated_passes s) infos
     (m_current_pass_info s) (m_testing_mode s) (m_verify_none_mode s) (calls s).

Definition with_current (c : option nat) (s : t) : t :=
  mk (m_config s) (m_registered_passes s) (m_activated_passes s) (m_pass_info s)
     c (m_testing_mode s) (m_verify_none_mode s) (calls s).

(** One more outside call. *)
Definition log (e : event) (s : t) : t :=
  mk (m_config s) (m_registered_passes s) (m_activated_passes s) (m_pass_info s)
     (m_current_pass_info s) (m_testing_mode s) (m_verify_none_mode s)
     (calls s ++ [e]).

Definition logs (es : list event) (s : t) : t := foldl (λ acc e, log e acc) s es.

(** The first registered pass whose [name()] is [name]. *)
Fixpoint find_pass (E : Env) (name : string) (registered : list pass_ptr)
    : option pass_ptr :=
  match registered with
  | [] => None
  | p :: rest =>
      if decide (name = pass_name E p) then Some p else find_pass E name rest
  end.

(** [void PassManager::activate_pass(const char* name, const Json::Value& cfg)] *)
Definition activate_pass (E : Env) (name : string) (s : t) : result t :=
  match find_pass E name (m_registered_passes s) with
  | Some p =>
      Ok (log (ConfigurePass p (pass_name E p))
              (with_activated (m_activated_passes s ++ [p]) s))
  | None => Fail (AssertFailed ("No pass named " +:+ name +:+ "!"))
  end.

(** The loop of [init] over the configured names. *)
Fixpoint activate_all (E : Env) (names : list string) (s : t) : result t :=
  match names with
  | [] => Ok s
  | name :: rest => s' ← activate_pass E name s; activate_all E rest s'
  end.

(** [void PassManager::init(const Json::Value& config)] *)
Definition init (E : Env) (config : Config) (s : t) : result t :=
  match redex_passes config with
  | Some names => activate_all E names s
  | None => Ok (with_activated (m_registered_passes s) s)
  end.

(** The constructors: the member initialisers, then [init(config)].  The
    two constructors differ in [m_pg_config] only, which this file hands on
    to outside code and never reads. *)
Definition new (E : Env) (passes : list pass_ptr) (config : Config)
    (verify_none_mode : bool) : result t :=
  init E config
       {| m_config := config; m_registered_passes := passes;
          m_activated_passes := []; m_pass_info := [];
          m_current_pass_info := None; m_testing_mode := false;
          m_verify_none_mode := verify_none_mode; calls := [] |}.

(** [m_current_pass_info->metrics] changed by [f]. *)
Definition update_metrics (i : nat) (f : gmap string Z → gmap string Z) (s : t)
    : t :=
  with_pass_info
    (alter (λ info, PassInfo.with_metrics (f (PassInfo.metrics info)) info) i
           (m_pass_info s)) s.

(** The values of [int]. *)
Definition is_int (z : Z) : Prop := (- 2 ^ 31 ≤ z < 2 ^ 31)%Z.

(** Reduction of a sum to [int], in two's complement. *)
Definition wrap_int (z : Z) : Z := ((z + 2 ^ 31) mod 2 ^ 32 - 2 ^ 31)%Z.

(** [void PassManager::incr_metric(const std::string& key, int value)]:
    [operator[]] enters a missing key with 0, then [+=] adds in [int]. *)
Definition incr_metric (key : string) (value : Z) (s : t) : result t :=
  match m_current_pass_info s with
  | None => Fail (AssertFailed "No current pass!")
  | Some i =>
      Ok (update_metrics i
            (λ m, <[key := wrap_int (default 0 (m !! key) + value)%Z]> m) s)
  end.

(** [void PassManager::set_metric(const std::string& key, int value)] *)
Definition set_metric (key : string) (value : Z) (s : t) : result t :=
  match m_current_pass_info s with
  | None => Fail (AssertFailed "No current pass!")
  | Some i => Ok (update_metrics i (λ m, <[key := value]> m) s)
  end.

(** [int PassManager::get_metric(const std::string& key)]: no assertion
    guards the pointer, and [operator[]] enters a missing key with 0. *)
Definition get_metric (key : string) (s : t) : result (Z * t) :=
  match m_current_pass_info s with
  | None => Fail NullDereference
  | Some i =>
      match m_pass_info s !! i with
      | None => Fail NullDereference
      | Some info =>
          let v := default 0%Z (PassInfo.metrics info !! key) in
          Ok (v, update_metrics i (λ m, <[key := v]> m) s)
      end
  end.

(** [const std::vector<PassInfo>& get_pass_info() const] *)
Definition get_pass_info (s : t) : list PassInfo.t := m_pass_info s.

(** The loop of [get_interdex_metrics]; the function-local static [empty]
    is the empty map. *)
Fixpoint find_interdex_metrics (E : Env) (infos : list PassInfo.t)
    : result (gmap string Z) :=
  match infos with
  | [] => Ok ∅
  | info :: rest =>
      match PassInfo.pass info with
      | None => Fail NullDereference
      | Some p =>
          if decide (pass_name E p = INTERDEX_PASS_NAME E)
          then Ok (PassInfo.metrics info)
          else find_interdex_metrics E rest
      end
  end.

(** [const std::unordered_map<std::string, int>& get_interdex_metrics()] *)
Definition get_interdex_metrics (E : Env) (s : t) : result (gmap string Z) :=
  find_interdex_metrics E (m_pass_info s).

(** [void PassManager::run_type_checker(const Scope&, bool verify_moves)]:
    the checker is run on every method and the process exits when it fails
    on one. *)
Definition run_type_checker (E : Env) (verify_moves : bool) (s : t) : result t :=
  let s' := log (TypeCheck verify_moves) s in
  if checker_fail E (calls s') then Fail (ExitFailure (calls s')) else Ok s'.

(** [const std::string PASS_ORDER_KEY = "pass_order";] *)
Definition PASS_ORDER_KEY : string := "pass_order".

(** The lambda of [run_passes] that counts the appearances of each pass:
    [++pass_repeats[pass]] for every activated pass. *)
Definition count_passes (ps : list pass_ptr) : gmap pass_ptr nat :=
  foldl (λ m p, <[p := S (default 0%nat (m !! p))]> m) ∅ ps.

(** The part of [run_passes] before the passes: scope, reachable classes,
    proguard rules and the seeds files. *)
Definition prologue (E : Env) (s : t) : t :=
  let s := logs [BuildClassScope; InitReachableClasses; ProcessProguardRules] s in
  let s := match seeds_file_env E with
           | Some file => log (PrintSeeds file (Some (false, false))) s
           | None => s
           end in
  if decide (printseeds E = "") then s
  else logs [PrintSeeds (printseeds E) None;
             ShowConfiguration (printseeds E +:+ ".pro");
             PrintClasses (printseeds E +:+ ".incoming");
             PrintSeeds (printseeds E +:+ ".allowshrinking") (Some (true, false));
             PrintSeeds (printseeds E +:+ ".allowobfuscation") (Some (false, true))]
            s.

(** One iteration of the evaluation loop, for the pass [p] at index [i]. *)
Definition eval_iteration (E : Env) (pass_repeats : gmap pass_ptr nat)
    (i : nat) (p : pass_ptr) (st : gmap pass_ptr nat * t)
    : result (gmap pass_ptr nat * t) :=
  let pass_counters := st.1 in
  let s := st.2 in
  let count := default 0%nat (pass_counters !! p) in
  total ← match pass_repeats !! p with
          | Some n => Ok n
          | None => Fail OutOfRange
          end;
  let s := with_pass_info
             (alter (λ info,
                       PassInfo.mk (Some p) i count total
                         (pass_name E p +:+ "#" +:+ pretty (S count))
                         (<[PASS_ORDER_KEY := Z.of_nat i]> (PassInfo.metrics info)))
                    i (m_pass_info s)) s in
  let s := log (EvalPass p) (with_current (Some i) s) in
  let s := update_metrics i (eval_pass E p s) s in
  Ok (<[p := S count]> pass_counters, with_current None s).

(** The evaluation loop from index [i] on. *)
Fixpoint eval_loop (E : Env) (pass_repeats : gmap pass_ptr nat) (i : nat)
    (ps : list pass_ptr) (st : gmap pass_ptr nat * t)
    : result (gmap pass_ptr nat * t) :=
  match ps with
  | [] => Ok st
  | p :: rest =>
      st' ← eval_iteration E pass_repeats i p st;
      eval_loop E pass_repeats (S i) rest st'
  end.

(** [auto type_checker_args = m_config["ir_type_checker"];] (line 157)
    reads the member of the manager through the [operator[]] of the JSON
    library, which on a value that is not [const] enters the member, as a
    null value, when there is none.  A null value answers [get] with the
    default it is given and has no elements.  ([m_config] is declared in
    [PassManager.h], which is not among the sources; the constructors
    initialise it from their argument and [run_passes] is not a [const]
    member function.) *)
Definition touch_type_checker (c : Config) : Config :=
  match ir_type_checker c with
  | Some _ => c
  | None =>
      {| redex_passes := redex_passes c;
         ir_type_checker :=
           Some {| run_after_each_pass := None; verify_moves := None;
                   run_after_passes := [] |} |}
  end.

(** One iteration of the run loop, for the pass [p] at index [i].  The
    type checker's settings are the locals [type_checker_enabled],
    [run_after_each_pass], [verify_moves] and [trigger_passes] of lines
    156-165, read once before the loop from the configuration [c]. *)
Definition run_iteration (E : Env) (c : Config) (i : nat) (p : pass_ptr)
    (s : t) : result t :=
  let s := log (RunPass p) (with_current (Some i) s) in
  let s := update_metrics i (run_pass E p s) s in
  s ← (if type_checker_enabled c
          && (arg_run_after_each_pass c
              || bool_decide (pass_name E p ∈ trigger_passes c))
       then run_type_checker E (arg_verify_moves c) (log BuildClassScope s)
       else Ok s);
  Ok (with_current None s).

(** The run loop from index [i] on. *)
Fixpoint run_loop (E : Env) (c : Config) (i : nat) (ps : list pass_ptr)
    (s : t) : result t :=
  match ps with
  | [] => Ok s
  | p :: rest => s' ← run_iteration E c i p s; run_loop E c (S i) rest s'
  end.

(** The part of [run_passes] after the passes: the last type check, with
    the settings read before the run loop, and the outgoing classes. *)
Definition epilogue (E : Env) (c : Config) (s : t) : result t :=
  s ← (if type_checker_enabled c
       then run_type_checker E (arg_verify_moves c) (log BuildClassScope s)
       else Ok s);
  Ok (if decide (printseeds E = "") then s
      else logs [BuildClassScope;
                 PrintClasses (printseeds E +:+ ".outgoing");
                 AlertSeeds] s).

(** [void PassManager::run_passes(DexStoresVector&, const Scope&, ConfigFiles&)].
    After the evaluation loop the type checker's settings are read from
    [m_config] as it is then ([isMember] first, line 156), and reading
    [m_config["ir_type_checker"]] leaves the member in [m_config]. *)
Definition run_passes (E : Env) (s : t) : result t :=
  let s := prologue E s in
  let pass_repeats := count_passes (m_activated_passes s) in
  let s := with_pass_info
             (resize (length (m_activated_passes s)) PassInfo.initial
                     (m_pass_info s)) s in
  st ← eval_loop E pass_repeats 0 (m_activated_passes s) (∅, s);
  let c := m_config st.2 in
  let s' := with_config (touch_type_checker c) st.2 in
  s' ← run_loop E c 0 (m_activated_passes s) s';
  epilogue E c s'.

(** The calls that evaluate or run a pass or check the types. *)
Definition is_pass_event (e : event) : bool :=
  match e with EvalPass _ | RunPass _ | TypeCheck _ => true | _ => false end.

Definition is_type_check (e : event) : bool :=
  match e with TypeCheck _ => true | _ => false end.

Definition is_eval_or_run (e : event) : bool :=
  match e with EvalPass _ | RunPass _ => true | _ => false end.

(** Two infos that differ in their metrics at most. *)
Definition same_bookkeeping (a b : PassInfo.t) : Prop :=
  PassInfo.pass a = PassInfo.pass b ∧ PassInfo.order a = PassInfo.order b
  ∧ PassInfo.repeat a = PassInfo.repeat b
  ∧ PassInfo.total_repeat a = PassInfo.total_repeat b
  ∧ PassInfo.name a = PassInfo.name b.

(** The metric stored under [key], 0 when there is none: what
    [metrics[key]] reads. *)
Definition metric_value (key : string) (info : PassInfo.t) : Z :=
  default 0%Z (PassInfo.metrics info !! key).

(** The number of occurrences of [p] in a list of passes. *)
Definition occurrences (p : pass_ptr) (ps : list pass_ptr) : nat :=
  length (filter (λ q, q = p) ps).

(** The condition under which the run loop checks the types after [p]. *)
Definition check_follows (E : Env) (c : Config) (p : pass_ptr) : bool :=
  type_checker_enabled c
  && (arg_run_after_each_pass c
      || bool_decide (pass_name E p ∈ trigger_passes c)).

(** The outside calls of one type check: the scope is computed anew, then
    the checker runs. *)
Definition check_calls (c : Config) : list event :=
  [BuildClassScope; TypeCheck (arg_verify_moves c)].

(** The outside calls of the run loop for one pass. *)
Definition run_calls (E : Env) (c : Config) (p : pass_ptr) : list event :=
  RunPass p :: (if check_follows E c p then check_calls c else []).

(** The outside calls between the prologue and the outgoing classes, for
    the activated passes [ps], when no check fails. *)
Definition pass_schedule (E : Env) (c : Config) (ps : list pass_ptr)
    : list event :=
  (EvalPass <$> ps) ++ (ps ≫= run_calls E c)
  ++ (if type_checker_enabled c then check_calls c else []).

(** The outside calls after the last type check. *)
Definition outgoing_calls (E : Env) : list event :=
  if decide (printseeds E = "") then []
  else [BuildClassScope; PrintClasses (printseeds E +:+ ".outgoing"); AlertSeeds].

(** The passes leave the metric [PASS_ORDER_KEY] as they find it. *)
Definition keeps_pass_order (E : Env) : Prop :=
  ∀ p s m,
    eval_pass E p s m !! PASS_ORDER_KEY = m !! PASS_ORDER_KEY
    ∧ run_pass E p s m !! PASS_ORDER_KEY = m !! PASS_ORDER_KEY.

(** How an info can change while passes are evaluated and run: in its
    metrics only, and not in the metric [PASS_ORDER_KEY] when the passes
    leave that alone. *)
Definition evolves (E : Env) (a b : PassInfo.t) : Prop :=
  same_bookkeeping a b
  ∧ (keeps_pass_order E →
     PassInfo.metrics b !! PASS_ORDER_KEY = PassInfo.metrics a !! PASS_ORDER_KEY).

(** The members that only the constructor assigns. *)
Definition same_setup (s s' : t) : Prop :=
  m_config s' = m_config s
  ∧ m_registered_passes s' = m_registered_passes s
  ∧ m_activated_passes s' = m_activated_passes s
  ∧ m_testing_mode s' = m_testing_mode s
  ∧ m_verify_none_mode s' = m_verify_none_mode s.

(** Whether the character [c] occurs in [s]. *)
Fixpoint occurs (c : ascii) (s : string) : bool :=
  match s with
  | EmptyString => false
  | String a s' => bool_decide (a = c) || occurs c s'
  end.

End PassManager.

(** Sample passes and managers. *)
Module PassSamples.
Import PassManager.

Definition names (p : pass_ptr) : string :=
  match p with
  | 1 => "A"
  | 2 => "B"
  | 3 => "InterDexPass"
  | _ => "C"
  end.

(** Passes that count their evaluations and runs; [fails] decides the type
    checks. *)
Definition env (fails : list event → bool) : Env :=
  {| pass_name := names;
     eval_pass := λ p s m, <["evaluated" := (default 0 (m !! "evaluated") + 1)%Z]> m;
     run_pass := λ p s m, <["run" := Z.of_nat (length (calls s))]> m;
     checker_fail := fails;
     INTERDEX_PASS_NAME := "InterDexPass";
     seeds_file_env := None;
     printseeds := "seeds" |}.

Definition passing : Env := env (λ _, false).

(** The second type check fails. *)
Definition failing : Env :=
  env (λ l, bool_decide (length (filter (λ e, is_type_check e = true) l) = 2%nat)).

Definition config : Config :=
  {| redex_passes := Some ["A"; "B"; "A"; "InterDexPass"];
     ir_type_checker :=
       Some {| run_after_each_pass := None; verify_moves := Some true;
               run_after_passes := ["B"; "A"] |} |}.

Definition unchecked : Config :=
  {| redex_passes := None; ir_type_checker := None |}.

Definition registered : list pass_ptr := [1; 2; 3; 4].

Definition of_result (r : result t) : t :=
  match r with
  | Ok s => s
  | Fail _ => mk unchecked [] [] [] None false false []
  end.

Definition fresh : t := of_result (new passing registered config false).
Definition fresh_unchecked : t :=
  of_result (new passing registered unchecked false).
Definition finished : t := of_result (run_passes passing fresh).
Definition finished_unchecked : t :=
  of_result (run_passes passing fresh_unchecked).

(** A manager in the middle of the pass at index 1. *)
Definition running : t := with_current (Some 1%nat) finished.

End PassSamples.


(* ===================================================================== *)
(** * Properties *)
(* ===================================================================== *)

(** ** RangeSet: idempotent insertion, first-insertion order *)

Module RangeSetFacts.
Import RangeSet.

Lemma contains_spec insn rs : contains insn rs = true ↔ insn ∈ m_range_set rs.
Proof. unfold contains. apply bool_decide_eq_true. Qed.

Lemma emplace_contained insn rs : contains insn rs = true → emplace insn rs = rs.
Proof. unfold emplace. by intros ->. Qed.

Lemma contains_emplace insn rs : contains insn (emplace insn rs) = true.
Proof.
  unfold emplace. destruct (contains insn rs) eqn:E; [done|].
  apply contains_spec. simpl. set_solver.
Qed.

Lemma emplace_twice insn rs : emplace insn (emplace insn rs) = emplace insn rs.
Proof. apply emplace_contained, contains_emplace. Qed.

Lemma emplace_all_snoc calls insn rs :
  emplace_all (calls ++ [insn]) rs = emplace insn (emplace_all calls rs).
Proof. unfold emplace_all. by rewrite foldl_app. Qed.

Lemma consistent_empty : consistent empty.
Proof. split; [constructor|]. simpl. set_solver. Qed.

Lemma consistent_emplace insn rs : consistent rs → consistent (emplace insn rs).
Proof.
  intros [Hnd Hset]. unfold emplace.
  destruct (contains insn rs) eqn:E; [done|].
  apply not_true_iff_false in E. rewrite contains_spec in E.
  split; simpl.
  - apply NoDup_app. split_and!; [done| |apply NoDup_singleton].
    intros x Hx ->%list_elem_of_singleton. apply E. by apply Hset.
  - intros x. rewrite elem_of_union, elem_of_singleton, elem_of_app,
      list_elem_of_singleton, Hset. tauto.
Qed.

Lemma consistent_emplace_all calls rs :
  consistent rs → consistent (emplace_all calls rs).
Proof.
  revert rs. induction calls as [|i calls IH]; intros rs H; [done|].
  apply IH. by apply consistent_emplace.
Qed.

Lemma first_index_lt x l a : first_index x l = Some a → (a < length l)%nat.
Proof.
  unfold first_index. intros ([i y]&Hf&?)%fmap_Some. simplify_eq/=.
  apply list_find_Some in Hf as (Hl&_). by eapply lookup_lt_Some.
Qed.

Lemma first_index_elem_of x l : x ∈ l → is_Some (first_index x l).
Proof.
  intros Hx. unfold first_index.
  destruct (list_find_elem_of (λ y, y = x) l x Hx eq_refl) as [[i y] ->].
  by eexists.
Qed.

Lemma first_index_app_l x l k a :
  first_index x l = Some a → first_index x (l ++ k) = Some a.
Proof.
  unfold first_index. intros ([i y]&Hf&?)%fmap_Some. simplify_eq/=.
  by rewrite (list_find_app_l _ _ _ _ _ Hf).
Qed.

Lemma first_index_snoc_new x l : x ∉ l → first_index x (l ++ [x]) = Some (length l).
Proof.
  intros Hx. unfold first_index. rewrite list_find_app_r.
  - simpl. by rewrite decide_True.
  - apply list_find_None, Forall_forall. by intros y Hy ->.
Qed.

Lemma inserted_before_app_l calls k x y :
  inserted_before calls x y → inserted_before (calls ++ k) x y.
Proof.
  intros (a&b&Ha&Hb&Hab). exists a, b. eauto using first_index_app_l.
Qed.

Lemma StronglySorted_weaken {A} (R R' : relation A) l :
  (∀ x y, R x y → R' x y) → StronglySorted R l → StronglySorted R' l.
Proof.
  intros HR. induction 1 as [|x l _ IH Hx]; constructor; [done|].
  eapply Forall_impl; [exact Hx|]. auto.
Qed.

(** What a run of [emplace] calls on the empty set leaves in the vector. *)
Lemma emplace_all_vec calls :
  consistent (emplace_all calls empty)
  ∧ (∀ x, x ∈ m_range_vec (emplace_all calls empty) ↔ x ∈ calls)
  ∧ StronglySorted (inserted_before calls) (m_range_vec (emplace_all calls empty)).
Proof.
  induction calls as [|i calls (Hc & Hel & Hs)] using rev_ind.
  { split_and!; [apply consistent_empty| |constructor].
    intros x. simpl. set_solver. }
  rewrite emplace_all_snoc.
  split; [by apply consistent_emplace|].
  unfold emplace. destruct (contains i (emplace_all calls empty)) eqn:E.
  - apply contains_spec, (proj2 Hc), Hel in E. split.
    + intros x. rewrite Hel, elem_of_app, list_elem_of_singleton.
      split; [by left|]. by intros [?| ->].
    + eapply StronglySorted_weaken; [|exact Hs].
      intros x y. apply inserted_before_app_l.
  - apply not_true_iff_false in E. rewrite contains_spec, (proj2 Hc), Hel in E.
    simpl. split.
    + intros x. rewrite !elem_of_app, Hel. tauto.
    + rewrite StronglySorted_app. split_and!.
      * intros x y Hx ->%list_elem_of_singleton.
        apply Hel, first_index_elem_of in Hx as [a Ha].
        exists a, (length calls). split_and!.
        -- by apply first_index_app_l.
        -- by apply first_index_snoc_new.
        -- by eapply first_index_lt.
      * eapply StronglySorted_weaken; [|exact Hs].
        intros x y. apply inserted_before_app_l.
      * repeat constructor.
Qed.

Lemma inserted_before_asym calls x y :
  inserted_before calls x y → inserted_before calls y x → x = y.
Proof. intros (a&b&?&?&?) (a'&b'&?&?&?). simplify_eq. lia. Qed.

(** C5. Inserting into a [RangeSet] is idempotent and iteration follows the
    order of first insertion.  An [emplace] of an instruction that is
    contained changes nothing; a second [emplace] of the same instruction
    leaves the whole set, hence [size()] and the iteration sequence, as the
    first one left it.  After any sequence of calls on an empty set the
    iteration has no repetition, holds exactly the instructions of the
    calls, and lists them by their first call; it is the only list with
    these three properties, so it is fixed by the call sequence alone. *)
Theorem emplace_idempotent_first_insertion_order
    (insn : insn_ptr) (rs : t) (calls : list insn_ptr) :
  (contains insn rs = true → emplace insn rs = rs)
  ∧ emplace insn (emplace insn rs) = emplace insn rs
  ∧ size (emplace insn (emplace insn rs)) = size (emplace insn rs)
  ∧ iteration (emplace insn (emplace insn rs)) = iteration (emplace insn rs)
  ∧ NoDup (iteration (emplace_all calls empty))
  ∧ (∀ x, x ∈ iteration (emplace_all calls empty) ↔ x ∈ calls)
  ∧ StronglySorted (inserted_before calls) (iteration (emplace_all calls empty))
  ∧ (∀ v, NoDup v → (∀ x, x ∈ v ↔ x ∈ calls) →
          StronglySorted (inserted_before calls) v →
          v = iteration (emplace_all calls empty)).
Proof.
  destruct (emplace_all_vec calls) as ([Hnd _] & Hel & Hs).
  split_and!; try by rewrite emplace_twice.
  - apply emplace_contained.
  - done.
  - done.
  - done.
  - intros v Hv Hvel Hvs. unfold iteration.
    eapply StronglySorted_unique_strong; [|exact Hvs|exact Hs|].
    + intros x y _ _. apply inserted_before_asym.
    + apply NoDup_Permutation; [done..|]. intros x. by rewrite Hvel, Hel.
Qed.

End RangeSetFacts.

(** ** Node: the state after construction *)

Module NodeFacts.
Import Node.

Lemma to_reg_t_bound x : to_reg_t x ≤ 65535.
Proof.
  unfold to_reg_t. pose proof (N.mod_upper_bound x (2 ^ 16)). lia.
Qed.

(** C9. A default-constructed [Node] has [max_vreg] 65535, which is the
    largest value a [reg_t] can take, weight 0, width 0, type UNKNOWN, the
    PARAM, RANGE and SPILL flags clear and the ACTIVE flag set (the bitset is
    exactly the ACTIVE bit); its adjacency list is empty. *)
Theorem new_node_defaults :
  max_vreg new = 65535
  ∧ (∀ x, to_reg_t x ≤ max_vreg new)
  ∧ weight new = 0
  ∧ width new = 0
  ∧ type new = UNKNOWN
  ∧ is_param new = false
  ∧ is_range new = false
  ∧ is_spilt new = false
  ∧ is_active new = true
  ∧ m_props new = N.shiftl 1 (bit ACTIVE)
  ∧ adjacent new = [].
Proof.
  split_and!; try reflexivity. intros x. apply to_reg_t_bound.
Qed.


Lemma is_active_with_adjacent l n : is_active (with_adjacent l n) = is_active n.
Proof. done. Qed.


End NodeFacts.

(** ** impl::div_ceil *)

Module ImplFacts.
Import impl.
Local Open Scope Z_scope.

Lemma wrap32_sum_pred a b :
  0 ≤ a + b - 1 < 2 ^ 32 → wrap32 (wrap32 (a + b) - 1) = a + b - 1.
Proof.
  intros H. unfold wrap32.
  rewrite Zminus_mod_idemp_l. by apply Z.mod_small.
Qed.

(** C10. For 32-bit unsigned [a] and [b], [b] positive and [a + b - 1]
    representable, [div_ceil a b] is the ceiling of [a / b]: it is the least
    integer [q] with [a <= b * q]; equivalently [b * (q - 1) < a <= b * q].
    The result is again a 32-bit unsigned value. *)
Theorem div_ceil_is_ceiling (a b : Z) :
  0 ≤ a < 2 ^ 32 → 0 < b < 2 ^ 32 → a + b - 1 < 2 ^ 32 →
  a ≤ b * div_ceil a b
  ∧ (∀ k, a ≤ b * k → div_ceil a b ≤ k)
  ∧ b * (div_ceil a b - 1) < a
  ∧ 0 ≤ div_ceil a b < 2 ^ 32.
Proof.
  intros Ha Hb Hsum. unfold div_ceil.
  rewrite wrap32_sum_pred by lia.
  pose proof (Z.mul_div_le (a + b - 1) b ltac:(lia)) as Hle.
  pose proof (Z.mul_succ_div_gt (a + b - 1) b ltac:(lia)) as Hgt.
  assert (Hlow : b * ((a + b - 1) / b - 1) < a) by lia.
  split_and!.
  - lia.
  - intros k Hk. apply Z.lt_succ_r, Z.div_lt_upper_bound; lia.
  - exact Hlow.
  - apply Z.div_pos; lia.
  - apply Z.div_lt_upper_bound; nia.
Qed.

Lemma div_ceil_is_ceiling_witness :
  (7 ≤ 2 * div_ceil 7 2
   ∧ (∀ k, 7 ≤ 2 * k → div_ceil 7 2 ≤ k)
   ∧ 2 * (div_ceil 7 2 - 1) < 7
   ∧ 0 ≤ div_ceil 7 2 < 2 ^ 32)
  ∧ div_ceil 7 2 = 4.
Proof.
  split; [apply (div_ceil_is_ceiling 7 2); lia | reflexivity].
Defined.

End ImplFacts.

(** ** Graph: the edge queries *)

Module GraphQueries.
Import Graph.

Lemma Edge_comm u v : Edge u v = Edge v u.
Proof.
  unfold Edge, impl.OrderedPair_new. by rewrite N.min_comm, N.max_comm.
Qed.

Lemma Edge_ordered u v : impl.first (Edge u v) ≤ impl.second (Edge u v).
Proof. simpl. lia. Qed.


Lemma is_adjacent_true g u v :
  is_adjacent g u v = true ↔ is_Some (m_adj_matrix g !! Edge u v).
Proof. unfold is_adjacent. apply bool_decide_eq_true. Qed.

Lemma is_adjacent_false g u v :
  is_adjacent g u v = false ↔ m_adj_matrix g !! Edge u v = None.
Proof.
  unfold is_adjacent. rewrite bool_decide_eq_false. symmetry. apply eq_None_not_Some.
Qed.

(** [is_coalesceable] never reaches the throwing branch of [at]. *)
Lemma is_coalesceable_eq g u v :
  is_coalesceable g u v = Some (negb (not_coalesceable g u v)).
Proof.
  unfold is_coalesceable, not_coalesceable, is_adjacent.
  by destruct (m_adj_matrix g !! Edge u v) as [nc|].
Qed.

(** C1. An edge is stored under one key, the pair (min, max), whichever way
    round its endpoints are given.  Hence [is_adjacent] and
    [is_coalesceable] are symmetric in their arguments, and both read the one
    entry stored for the pair: [is_adjacent] tells whether the entry exists,
    [is_coalesceable] is the negation of its not-coalesceable marker (true
    when there is no entry). *)
Theorem edge_queries_symmetric (g : t) (u v : reg_t) :
  Edge u v = impl.mkOrderedPair (N.min u v) (N.max u v)
  ∧ Edge u v = Edge v u
  ∧ impl.first (Edge u v) ≤ impl.second (Edge u v)
  ∧ is_adjacent g u v = is_adjacent g v u
  ∧ is_coalesceable g u v = is_coalesceable g v u
  ∧ is_adjacent g u v
    = bool_decide (is_Some (m_adj_matrix g
                              !! impl.mkOrderedPair (N.min u v) (N.max u v)))
  ∧ is_coalesceable g u v
    = Some (match m_adj_matrix g !! impl.mkOrderedPair (N.min u v) (N.max u v)
            with Some marker => negb marker | None => true end).
Proof.
  split_and!.
  - done.
  - apply Edge_comm.
  - apply Edge_ordered.
  - unfold is_adjacent. by rewrite Edge_comm.
  - rewrite !is_coalesceable_eq. unfold not_coalesceable. by rewrite Edge_comm.
  - done.
  - rewrite is_coalesceable_eq. unfold not_coalesceable, Edge, impl.OrderedPair_new.
    by destruct (m_adj_matrix g !! _).
Qed.

(** C2. [is_coalesceable u v] always returns; it returns true exactly when
    the pair has no edge or has an edge whose stored marker is false, and
    false exactly when the pair has an edge whose stored marker is true. *)
Theorem is_coalesceable_conservative (g : t) (u v : reg_t) :
  is_Some (is_coalesceable g u v)
  ∧ (is_coalesceable g u v = Some true
     ↔ is_adjacent g u v = false
       ∨ (is_adjacent g u v = true ∧ m_adj_matrix g !! Edge u v = Some false))
  ∧ (is_coalesceable g u v = Some false
     ↔ is_adjacent g u v = true ∧ m_adj_matrix g !! Edge u v = Some true).
Proof.
  rewrite is_coalesceable_eq, is_adjacent_true, is_adjacent_false.
  unfold not_coalesceable.
  pose proof (@is_Some_None bool) as HN.
  destruct (m_adj_matrix g !! Edge u v) as [[]|]; simpl;
    (split; [by eexists|]); intuition (congruence || eauto).
Qed.

(** C8. [get_liveness] returns the snapshot stored for an instruction that
    is registered in the range-liveness table, and fails for every
    instruction that is not; it returns a result exactly for the registered
    instructions.  In particular it fails on the empty graph. *)
Theorem get_liveness_registered_only (g : t) (insn : insn_ptr) :
  (∀ d, m_range_liveness g !! insn = Some d → get_liveness g insn = Some d)
  ∧ (registered g insn ↔ is_Some (get_liveness g insn))
  ∧ (¬ registered g insn ↔ get_liveness g insn = None)
  ∧ get_liveness create_empty insn = None.
Proof.
  unfold get_liveness, registered. split_and!.
  - done.
  - apply elem_of_dom.
  - apply not_elem_of_dom.
  - done.
Qed.

End GraphQueries.

(** ** Graph: the containment relation *)

Module Containment.
Import Graph.

Lemma has_containment_edge_true g a b :
  has_containment_edge g a b = true ↔ (a, b) ∈ m_containment_graph g.
Proof. unfold has_containment_edge. apply bool_decide_eq_true. Qed.

Lemma add_containment_edge_refused g u : add_containment_edge g u u = g.
Proof. unfold add_containment_edge. by rewrite bool_decide_eq_true_2. Qed.

Lemma elem_of_add_containment_edge g u v a b :
  (a, b) ∈ m_containment_graph (add_containment_edge g u v)
  ↔ (u ≠ v ∧ a = u ∧ b = v) ∨ (a, b) ∈ m_containment_graph g.
Proof.
  unfold add_containment_edge, ContainmentEdge. case_bool_decide as Huv; simpl.
  - split; [by right|]. by intros [(?&?&?)|?].
  - rewrite elem_of_union, elem_of_singleton. split.
    + intros [[= -> ->]|?]; [by left|by right].
    + intros [(_&->&->)|?]; [by left|by right].
Qed.

Lemma add_containment_edge_others g u v :
  m_nodes (add_containment_edge g u v) = m_nodes g
  ∧ m_adj_matrix (add_containment_edge g u v) = m_adj_matrix g
  ∧ m_range_liveness (add_containment_edge g u v) = m_range_liveness g.
Proof. unfold add_containment_edge. by case_bool_decide. Qed.

Lemma irreflexive_alt g : containment_irreflexive g ↔ ∀ w, (w, w) ∉ m_containment_graph g.
Proof.
  unfold containment_irreflexive. split; intros H w; specialize (H w).
  - rewrite <-has_containment_edge_true. by rewrite H.
  - apply not_true_is_false. by rewrite has_containment_edge_true.
Qed.

Lemma irreflexive_add_containment_edge g u v :
  containment_irreflexive g → containment_irreflexive (add_containment_edge g u v).
Proof.
  rewrite !irreflexive_alt. intros H w.
  rewrite elem_of_add_containment_edge. intros [(?&?&?)|?]; [congruence|].
  by apply (H w).
Qed.

(** Re-entering a list of edges with [v] redirected to [u]. *)
Lemma elem_of_repoint_fold g0 v u (l : list (reg_t * reg_t)) a b :
  (a, b) ∈ m_containment_graph
    (foldr (λ e acc, add_containment_edge acc (repoint v u e.1) (repoint v u e.2))
           g0 l)
  ↔ (a ≠ b ∧ ∃ a0 b0, (a0, b0) ∈ l ∧ a = repoint v u a0 ∧ b = repoint v u b0)
    ∨ (a, b) ∈ m_containment_graph g0.
Proof.
  induction l as [|[a1 b1] l IH]; simpl.
  - split; [by right|]. intros [(_&?&?&H&_)|?]; [|done]. by apply elem_of_nil in H.
  - rewrite elem_of_add_containment_edge, IH. split.
    + intros [(Hne&->&->)|[(Hne&a0&b0&Hin&->&->)|?]].
      * left. split; [done|]. exists a1, b1. split; [left|done].
      * left. split; [done|]. exists a0, b0. split; [by right|done].
      * by right.
    + intros [(Hne&a0&b0&Hin&->&->)|?]; [|by right; right].
      apply elem_of_cons in Hin as [[= -> ->]|Hin]; [by left|].
      right. left. split; [done|]. by exists a0, b0.
Qed.



Lemma elem_of_repoint_containment g v u a b :
  (a, b) ∈ m_containment_graph (repoint_containment g v u)
  ↔ a ≠ b ∧ ∃ a0 b0, (a0, b0) ∈ m_containment_graph g
                      ∧ a = repoint v u a0 ∧ b = repoint v u b0.
Proof.
  unfold repoint_containment. rewrite elem_of_repoint_fold. simpl. split.
  - intros [(?&a0&b0&Hin&?&?)|H]; [|by apply not_elem_of_empty in H].
    split; [done|]. exists a0, b0. by rewrite <-elem_of_elements.
  - intros (?&a0&b0&Hin&?&?). left. split; [done|].
    exists a0, b0. by rewrite elem_of_elements.
Qed.

Lemma irreflexive_repoint_containment g v u :
  containment_irreflexive (repoint_containment g v u).
Proof.
  apply irreflexive_alt. intros w. rewrite elem_of_repoint_containment.
  by intros [? _].
Qed.

End Containment.


(** ** Graph: the mutators *)

Module Mutators.
Import Graph.

(** *** Adjacency lists *)







Lemma erase_adjacent_idemp r n :
  erase_adjacent r (erase_adjacent r n) = erase_adjacent r n.
Proof.
  unfold erase_adjacent, Node.with_adjacent. simpl. f_equal.
  by apply list_filter_filter_l.
Qed.


Lemma erase_adjacent_is_active r n :
  Node.is_active (erase_adjacent r n) = Node.is_active n.
Proof. done. Qed.


(** *** add_edge *)

Lemma add_edge_Some g u v c g' :
  add_edge g u v c = Some g' →
  is_Some (m_nodes g !! u) ∧ is_Some (m_nodes g !! v)
  ∧ (∀ w, m_nodes g' !! w = node_after_add_edge u v w <$> m_nodes g !! w)
  ∧ m_adj_matrix g'
    = <[Edge u v := not_coalesceable g u v || negb c]> (m_adj_matrix g)
  ∧ m_containment_graph g' = m_containment_graph g
  ∧ m_range_liveness g' = m_range_liveness g.
Proof.
  unfold add_edge. destruct (m_nodes g !! u) as [nu|] eqn:Eu; [|done].
  destruct (m_nodes g !! v) as [nv|] eqn:Ev; [|done]. simpl.
  intros [= <-]. simpl. split_and!; try done; try by eexists.
  clear Eu Ev. intros w. unfold node_after_add_edge.
  rewrite !lookup_alter.
  repeat case_decide; simplify_eq;
    (destruct (m_nodes g !! _) as [n|]; simpl; [|done]);
    repeat case_bool_decide; done.
Qed.





(** *** remove_node *)

Lemma lookup_erase_all r (l : list reg_t) (m : gmap reg_t Node.t) w :
  foldr (λ w ns, alter (erase_adjacent r) w ns) m l !! w
  = if bool_decide (w ∈ l) then erase_adjacent r <$> m !! w else m !! w.
Proof.
  induction l as [|x l IH]; simpl.
  - done.
  - rewrite lookup_alter. destruct (decide (x = w)) as [->|Hx].
    + rewrite IH, (bool_decide_eq_true_2 (w ∈ w :: l)) by left.
      destruct (bool_decide (w ∈ l)); [|done].
      destruct (m !! w); simpl; [|done]. by rewrite erase_adjacent_idemp.
    + rewrite IH. rewrite (bool_decide_ext (w ∈ x :: l) (w ∈ l)); [done|].
      rewrite elem_of_cons. split; [|by right]. by intros [->|?].
Qed.

Lemma remove_node_Some g r g' :
  remove_node g r = Some g' →
  ∃ n, m_nodes g !! r = Some n
       ∧ (∀ w, m_nodes g' !! w = node_after_removal r n w <$> m_nodes g !! w)
       ∧ m_adj_matrix g' = m_adj_matrix g
       ∧ m_containment_graph g' = m_containment_graph g
       ∧ m_range_liveness g' = m_range_liveness g.
Proof.
  unfold remove_node. destruct (m_nodes g !! r) as [n|] eqn:Er; [|done]. simpl.
  intros [= <-]. exists n. split_and!; try done.
  clear Er. intros w. simpl. unfold node_after_removal.
  rewrite lookup_alter. destruct (decide (r = w)) as [<-|Hw].
  - rewrite lookup_erase_all, (bool_decide_eq_true_2 (r = r)) by done.
    destruct (bool_decide (r ∈ _)); by destruct (m_nodes g !! r).
  - rewrite lookup_erase_all, (bool_decide_eq_false_2 (w = r)) by done.
    destruct (bool_decide (w ∈ _)); by destruct (m_nodes g !! w).
Qed.














(** *** The neighbour loop of combine *)



















(** *** The adjacency lists stay symmetric *)



(** *** combine *)

Lemma combine_Some g u v g' :
  combine g u v = Some g' →
  ∃ nu nv g1,
    m_nodes g !! u = Some nu ∧ m_nodes g !! v = Some nv
    ∧ is_coalesceable g u v = Some true
    ∧ foldl (combine_step u v) (Some g) (Node.m_adjacent nv) = Some g1
    ∧ g' = repoint_containment
             (with_nodes (alter (Node.reset Node.ACTIVE) v
                            (alter (merge_props nv) u (m_nodes g1))) g1) v u.
Proof.
  unfold combine.
  destruct (m_nodes g !! u) as [nu|]; [|done].
  destruct (m_nodes g !! v) as [nv|]; [|done]. simpl.
  destruct (is_coalesceable g u v) as [[]|]; [|done..]. simpl.
  destruct (foldl _ _ _) as [g1|] eqn:Hloop; [|done]. simpl.
  intros [= <-]. by exists nu, nv, g1.
Qed.




Lemma test_reset_other p q n :
  p ≠ q → Node.test p (Node.reset q n) = Node.test p n.
Proof.
  intros Hpq. unfold Node.test, Node.reset. simpl. apply N.clearbit_neq.
  by destruct p, q.
Qed.





(** A pair with a not-coalesceable edge is refused. *)
Lemma combine_refuses g u v :
  is_coalesceable g u v = Some false → combine g u v = None.
Proof.
  unfold combine. intros ->.
  by destruct (m_nodes g !! u), (m_nodes g !! v).
Qed.



End Mutators.

(** ** Runs of mutators *)

Module Runs.
Import Graph Mutators.









Lemma run_cons op ops g g' :
  run (op :: ops) g = Some g' ↔ ∃ g1, apply g op = Some g1 ∧ run ops g1 = Some g'.
Proof.
  simpl. destruct (apply g op) as [g1|]; simpl.
  - split; [by exists g1|]. by intros (? & [= <-] & ?).
  - split; [done|]. by intros (? & ? & ?).
Qed.




(** The containment relation stays free of self-edges. *)
Lemma containment_irreflexive_apply g op g' :
  containment_irreflexive g → apply g op = Some g' → containment_irreflexive g'.
Proof.
  intros Hirr. destruct op as [u v c|u v|r|u v]; simpl.
  - intros (_ & _ & _ & _ & Hc & _)%add_edge_Some w.
    unfold has_containment_edge. rewrite Hc. apply Hirr.
  - intros [= <-]. by apply Containment.irreflexive_add_containment_edge.
  - intros (_ & _ & _ & _ & Hc & _)%remove_node_Some w.
    unfold has_containment_edge. rewrite Hc. apply Hirr.
  - intros (nu & nv & g1 & _ & _ & _ & _ & ->)%combine_Some.
    apply Containment.irreflexive_repoint_containment.
Qed.

Lemma containment_irreflexive_run ops g g' :
  containment_irreflexive g → run ops g = Some g' → containment_irreflexive g'.
Proof.
  revert g. induction ops as [|op ops IH]; intros g Hirr.
  - by intros [= <-].
  - intros (g1 & Hop & Hrun)%run_cons.
    eapply IH; [|done]. by eapply containment_irreflexive_apply.
Qed.

(** C7. The containment relation has no self-edge: the empty graph has
    none, [add_containment_edge u u] leaves the graph as it is, and no run
    of mutators creates one; so a graph built from the empty one never has
    one.  The relation is directed: entering the edge [u] -> [v] makes
    [has_containment_edge u v] true and leaves [has_containment_edge v u]
    as it was, false if the reverse edge was never entered. *)
Theorem containment_no_self_edge_directed :
  (∀ u, has_containment_edge create_empty u u = false)
  ∧ (∀ g u, add_containment_edge g u u = g)
  ∧ (∀ ops g g', (∀ w, has_containment_edge g w w = false) →
                 run ops g = Some g' →
                 ∀ w, has_containment_edge g' w w = false)
  ∧ (∀ ops g' w, run ops create_empty = Some g' →
                 has_containment_edge g' w w = false)
  ∧ (∀ g u v, u ≠ v →
              has_containment_edge (add_containment_edge g u v) u v = true
              ∧ has_containment_edge (add_containment_edge g u v) v u
                = has_containment_edge g v u)
  ∧ (∀ u v, u ≠ v →
            has_containment_edge (add_containment_edge create_empty u v) u v = true
            ∧ has_containment_edge (add_containment_edge create_empty u v) v u
              = false).
Proof.
  assert (Hdir : ∀ g u v, u ≠ v →
            has_containment_edge (add_containment_edge g u v) u v = true
            ∧ has_containment_edge (add_containment_edge g u v) v u
              = has_containment_edge g v u).
  { intros g u v Huv. split.
    - apply Containment.has_containment_edge_true,
        Containment.elem_of_add_containment_edge. by left.
    - unfold has_containment_edge, ContainmentEdge. apply bool_decide_ext.
      rewrite Containment.elem_of_add_containment_edge.
      split; [|by right]. intros [(_&?&?)|?]; [congruence|done]. }
  split_and!.
  - done.
  - apply Containment.add_containment_edge_refused.
  - intros ops g g' Hirr Hrun. by apply (containment_irreflexive_run ops g g').
  - intros ops g' w Hrun.
    by apply (containment_irreflexive_run ops create_empty g').
  - exact Hdir.
  - intros u v Huv. by destruct (Hdir create_empty u v Huv) as [-> ->].
Qed.






End Runs.

(** ** The properties on the sample data *)

Module Checks.
Import Graph Samples.

Example sample_run : run sample_ops (fresh_graph [0; 1; 2; 3]) = Some sample.
Proof. vm_compute. reflexivity. Qed.

Example sample_adjacency :
  adjacent_of sample 0 = [1; 2] ∧ adjacent_of sample 1 = [0; 2; 3]
  ∧ adjacent_of sample 2 = [1; 0] ∧ adjacent_of sample 3 = [1].
Proof. vm_compute. auto. Qed.

Example sample_markers :
  is_coalesceable sample 0 1 = Some true ∧ is_coalesceable sample 1 0 = Some true
  ∧ is_coalesceable sample 1 2 = Some false ∧ is_coalesceable sample 0 3 = Some true
  ∧ is_adjacent sample 0 3 = false ∧ is_adjacent sample 2 1 = true.
Proof. vm_compute. auto 10. Qed.

Example combine_refused : combine sample 1 2 = None.
Proof. vm_compute. reflexivity. Qed.

Example remove_unknown : remove_node sample 9 = None.
Proof. vm_compute. reflexivity. Qed.

Example emplace_order :
  RangeSet.iteration (RangeSet.emplace_all [3; 1; 3; 2; 1] RangeSet.empty) = [3; 1; 2].
Proof. vm_compute. reflexivity. Qed.

(** Outside the stated range the sum wraps and the quotient is not the
    ceiling: [(2^32 - 1 + 2 - 1) mod 2^32 = 0]. *)
Example div_ceil_wraps : impl.div_ceil 4294967295 2 = 0%Z.
Proof. reflexivity. Qed.

(** A move between two registers and nothing else: the pair is
    coalesceable, and [combine] leaves one active node. *)
Example move_then_combine :
  (run [AddEdge 0 1 true] (fresh_graph [0; 1]) ≫= λ g, is_coalesceable g 0 1)
    = Some true
  ∧ (λ g, dom (active_nodes g))
      <$> run [AddEdge 0 1 true; Combine 0 1] (fresh_graph [0; 1])
    = Some {[0]}.
Proof. vm_compute. auto. Qed.



(** A parameter combined into register 0 makes register 0 a parameter. *)
Example combine_carries_param :
  (λ g, (Node.is_param <$> m_nodes g !! 0, dom (active_nodes g)))
    <$> run param_ops with_param
  = Some (Some true, {[0]}).
Proof. by vm_compute. Qed.


(** An already contained instruction, and the order of a run of calls. *)
Lemma emplace_idempotent_first_insertion_order_witness :
  RangeSet.contains 3 (RangeSet.emplace 3 RangeSet.empty) = true
  ∧ RangeSet.emplace 3 (RangeSet.emplace 3 RangeSet.empty)
    = RangeSet.emplace 3 RangeSet.empty
  ∧ RangeSet.iteration (RangeSet.emplace_all [3; 1; 3; 2; 1] RangeSet.empty)
    = [3; 1; 2].
Proof.
  pose proof (RangeSetFacts.emplace_idempotent_first_insertion_order
                3 (RangeSet.emplace 3 RangeSet.empty) [3; 1; 3; 2; 1])
    as (Hno & _).
  assert (Hc : RangeSet.contains 3 (RangeSet.emplace 3 RangeSet.empty) = true)
    by reflexivity.
  split; [exact Hc|]. split; [exact (Hno Hc)|]. reflexivity.
Defined.




(** The sample, built from an edge-free graph, has no containment self-edge
    and its containment edges are one-way. *)
Lemma containment_no_self_edge_directed_witness :
  (∀ w, has_containment_edge (fresh_graph [0; 1; 2; 3]) w w = false)
  ∧ (∀ w, has_containment_edge sample w w = false)
  ∧ has_containment_edge sample 1 2 = true
  ∧ has_containment_edge sample 2 1 = false.
Proof.
  assert (H0 : ∀ w, has_containment_edge (fresh_graph [0; 1; 2; 3]) w w = false)
    by done.
  split; [exact H0|]. split; [|by vm_compute].
  destruct Runs.containment_no_self_edge_directed as (_ & _ & Hrun & _).
  exact (Hrun sample_ops (fresh_graph [0; 1; 2; 3]) sample H0 sample_run).
Defined.

(** The registered instruction 7 has its snapshot returned; instruction 8,
    never registered, makes [get_liveness] fail. *)
Lemma get_liveness_registered_only_witness :
  m_range_liveness sample_live !! 7 = Some ({[1; 2]} : LivenessDomain)
  ∧ get_liveness sample_live 7 = Some ({[1; 2]} : LivenessDomain)
  ∧ get_liveness sample_live 8 = None.
Proof.
  assert (H : m_range_liveness sample_live !! 7 = Some ({[1; 2]} : LivenessDomain))
    by reflexivity.
  split; [exact H|]. split.
  - exact (proj1 (GraphQueries.get_liveness_registered_only sample_live 7) _ H).
  - reflexivity.
Defined.

End Checks.

(* ===================================================================== *)
(** * Further properties of the header *)
(* ===================================================================== *)

(** ** RangeSet: membership, size, growth *)

Module RangeSetMore.
Import RangeSet.

Lemma emplace_all_prefix calls rs :
  m_range_vec rs `prefix_of` m_range_vec (emplace_all calls rs).
Proof.
  revert rs. induction calls as [|i calls IH]; intros rs; [done|].
  etrans; [|apply IH]. unfold emplace.
  destruct (contains i rs); [done|]. by apply prefix_app_r.
Qed.

Lemma contains_emplace_other insn other rs :
  other ≠ insn → contains other (emplace insn rs) = contains other rs.
Proof.
  intros Hne. unfold emplace. destruct (contains insn rs) eqn:E; [done|].
  unfold contains. simpl. apply bool_decide_ext.
  rewrite elem_of_union, elem_of_singleton. split; [|by right].
  by intros [?|?].
Qed.

Lemma contains_emplace_all_mono calls insn rs :
  contains insn rs = true → contains insn (emplace_all calls rs) = true.
Proof.
  revert rs. induction calls as [|i calls IH]; intros rs H; [done|].
  apply IH. destruct (decide (insn = i)) as [->|Hne].
  - apply RangeSetFacts.contains_emplace.
  - by rewrite contains_emplace_other.
Qed.

(** X1. Insert and look up: after [emplace insn] the set contains [insn],
    membership of every other instruction is as before, and the empty set
    contains nothing. *)
Theorem contains_after_emplace (insn other : insn_ptr) (rs : t) :
  contains insn (emplace insn rs) = true
  ∧ (other ≠ insn → contains other (emplace insn rs) = contains other rs)
  ∧ contains insn empty = false.
Proof.
  split_and!.
  - apply RangeSetFacts.contains_emplace.
  - apply contains_emplace_other.
  - done.
Qed.

(** X2. [size()] counts distinct instructions: one [emplace] adds one to the
    size exactly when the instruction was not contained, and after any
    sequence of calls on the empty set the size is the number of different
    instructions among the calls, never more than the number of calls. *)
Theorem size_counts_distinct (insn : insn_ptr) (rs : t) (calls : list insn_ptr) :
  size (emplace insn rs) = (if contains insn rs then size rs else S (size rs))
  ∧ size (emplace_all calls empty)
    = base.size (list_to_set calls : gset insn_ptr)
  ∧ (size (emplace_all calls empty) ≤ length calls)%nat.
Proof.
  split_and!.
  - unfold emplace, size. destruct (contains insn rs); [done|].
    simpl. rewrite length_app. simpl. lia.
  - destruct (RangeSetFacts.emplace_all_vec calls) as ([Hnd _] & Hel & _).
    unfold size. rewrite <-(size_list_to_set (C:=gset insn_ptr)) by done.
    f_equal. apply set_eq. intros x. by rewrite !elem_of_list_to_set, Hel.
  - destruct (RangeSetFacts.emplace_all_vec calls) as ([Hnd _] & Hel & _).
    unfold size. apply submseteq_length, NoDup_submseteq; [done|].
    intros x. apply Hel.
Qed.

(** X3. The hash set and the vector agree on every set built from the empty
    one: [contains insn] holds exactly when iteration yields [insn], which
    is exactly when [insn] was emplaced. *)
Theorem contains_iff_iterated (calls : list insn_ptr) (insn : insn_ptr) :
  (contains insn (emplace_all calls empty) = true
   ↔ insn ∈ iteration (emplace_all calls empty))
  ∧ (contains insn (emplace_all calls empty) = true ↔ insn ∈ calls).
Proof.
  destruct (RangeSetFacts.emplace_all_vec calls) as ([_ Hset] & Hel & _).
  rewrite RangeSetFacts.contains_spec. unfold iteration. split.
  - apply Hset.
  - by rewrite Hset, Hel.
Qed.

(** X4. A [RangeSet] only grows at the end: whatever is emplaced later, the
    former iteration sequence is a prefix of the new one, so no instruction
    is removed or moved, the size does not decrease, and an instruction once
    contained stays contained. *)
Theorem emplace_only_appends (calls : list insn_ptr) (rs : t) (insn : insn_ptr) :
  iteration rs `prefix_of` iteration (emplace_all calls rs)
  ∧ (size rs ≤ size (emplace_all calls rs))%nat
  ∧ (contains insn rs = true → contains insn (emplace_all calls rs) = true).
Proof.
  split_and!.
  - apply emplace_all_prefix.
  - unfold size. apply prefix_length, emplace_all_prefix.
  - apply contains_emplace_all_mono.
Qed.

End RangeSetMore.

(** ** OrderedPair, Node flags, div_ceil *)

Module HeaderMore.
Import impl.

Lemma OrderedPair_eqb_eq p q : OrderedPair_eqb p q = true ↔ p = q.
Proof.
  destruct p as [a b], q as [c d]. unfold OrderedPair_eqb. simpl.
  rewrite andb_true_iff, !N.eqb_eq. split.
  - by intros [-> ->].
  - by intros [= -> ->].
Qed.

(** X5. [operator==] on pairs made by the constructor ignores the order in
    which the two registers were given and nothing else: two constructed
    pairs compare equal exactly when they were made from the same two
    registers, in the same or in swapped order.  The test decides equality
    of pairs. *)
Theorem OrderedPair_equal_iff_same_registers (u v u' v' : reg_t) :
  (OrderedPair_eqb (OrderedPair_new u v) (OrderedPair_new u' v') = true
   ↔ (u = u' ∧ v = v') ∨ (u = v' ∧ v = u'))
  ∧ OrderedPair_eqb (OrderedPair_new u v) (OrderedPair_new v u) = true
  ∧ (∀ p q, OrderedPair_eqb p q = true ↔ p = q).
Proof.
  split_and!.
  - rewrite OrderedPair_eqb_eq. unfold OrderedPair_new. split.
    + intros [= Hmin Hmax]. lia.
    + intros [[-> ->]|[-> ->]]; [done|].
      by rewrite N.min_comm, N.max_comm.
  - apply OrderedPair_eqb_eq. unfold OrderedPair_new.
    by rewrite N.min_comm, N.max_comm.
  - apply OrderedPair_eqb_eq.
Qed.

(** X6. The four property flags are independent: the enumerators are
    pairwise different bit positions below [PROPS_SIZE], so setting or
    clearing one property makes its own accessor true or false and leaves
    the three other accessors, and every other member of the node, as they
    were. *)
Theorem flags_independent (p q : Node.Property) (n : Node.t) :
  Node.bit p < Node.PROPS_SIZE
  ∧ (Node.bit p = Node.bit q → p = q)
  ∧ Node.test p (Node.set p n) = true
  ∧ Node.test p (Node.reset p n) = false
  ∧ (p ≠ q → Node.test q (Node.set p n) = Node.test q n
             ∧ Node.test q (Node.reset p n) = Node.test q n)
  ∧ (Node.weight (Node.set p n), Node.max_vreg (Node.set p n),
     Node.width (Node.set p n), Node.type (Node.set p n),
     Node.adjacent (Node.set p n))
    = (Node.weight n, Node.max_vreg n, Node.width n, Node.type n,
       Node.adjacent n)
  ∧ (Node.weight (Node.reset p n), Node.max_vreg (Node.reset p n),
     Node.width (Node.reset p n), Node.type (Node.reset p n),
     Node.adjacent (Node.reset p n))
    = (Node.weight n, Node.max_vreg n, Node.width n, Node.type n,
       Node.adjacent n).
Proof.
  assert (Hinj : Node.bit p = Node.bit q → p = q)
    by (destruct p, q; simpl; intros H; congruence || discriminate H).
  split_and!.
  - destruct p; reflexivity.
  - exact Hinj.
  - unfold Node.test, Node.set. simpl. apply N.setbit_eq.
  - unfold Node.test, Node.reset. simpl. apply N.clearbit_eq.
  - intros Hpq. unfold Node.test, Node.set, Node.reset. simpl.
    split; [apply N.setbit_neq|apply N.clearbit_neq]; intros Hb;
      by apply Hpq, Hinj.
  - done.
  - done.
Qed.

Local Open Scope Z_scope.

(** X7. Outside its range [div_ceil] is not the ceiling: for 32-bit
    unsigned [a] and positive [b] whose sum [a + b - 1] does not fit in 32
    bits, the addition wraps, the result is [(a + b - 1 - 2^32) / b], and
    [b] times the result is smaller than [a]. *)
Theorem div_ceil_wraps_below (a b : Z) :
  0 ≤ a < 2 ^ 32 → 0 < b < 2 ^ 32 → 2 ^ 32 ≤ a + b - 1 →
  div_ceil a b = (a + b - 1 - 2 ^ 32) / b
  ∧ b * div_ceil a b < a
  ∧ 0 ≤ div_ceil a b.
Proof.
  intros Ha Hb Hov. unfold div_ceil, wrap32.
  rewrite Zminus_mod_idemp_l.
  assert (Hw : (a + b - 1) mod 2 ^ 32 = a + b - 1 - 2 ^ 32).
  { symmetry. apply (Z.mod_unique_pos _ _ 1); lia. }
  rewrite Hw.
  pose proof (Z.mul_div_le (a + b - 1 - 2 ^ 32) b ltac:(lia)).
  split_and!; [done|lia|apply Z.div_pos; lia].
Qed.

Lemma div_ceil_wraps_below_witness :
  div_ceil 4294967295 2 = 0 ∧ 2 * div_ceil 4294967295 2 < 4294967295.
Proof.
  destruct (div_ceil_wraps_below 4294967295 2) as (H1 & H2 & _); [lia..|].
  split; [reflexivity|exact H2].
Defined.

(** X8. Within its range [div_ceil] is floor division rounded up: it is
    [a / b] when [b] divides [a] and [a / b + 1] otherwise; it is exact on
    multiples, gives 0 only for [a = 0], and does not decrease when [a]
    grows. *)
Theorem div_ceil_rounds_up (a a' b : Z) :
  0 ≤ a ≤ a' → 0 < b < 2 ^ 32 → a' + b - 1 < 2 ^ 32 →
  div_ceil a b = a / b + (if decide (a mod b = 0) then 0 else 1)
  ∧ (b * div_ceil a b = a ↔ a mod b = 0)
  ∧ (div_ceil a b = 0 ↔ a = 0)
  ∧ div_ceil a b ≤ div_ceil a' b.
Proof.
  intros Ha Hb Hsum. unfold div_ceil.
  rewrite !ImplFacts.wrap32_sum_pred by lia.
  pose proof (Z.div_mod a b ltac:(lia)) as Hdm.
  pose proof (Z.mod_pos_bound a b ltac:(lia)) as Hmod.
  assert (Hq : (a + b - 1) / b = a / b + (if decide (a mod b = 0) then 0 else 1)).
  { case_decide as H0.
    - symmetry. apply (Z.div_unique_pos _ _ _ (b - 1)); lia.
    - symmetry. apply (Z.div_unique_pos _ _ _ (a mod b - 1)); lia. }
  split_and!.
  - exact Hq.
  - rewrite Hq. case_decide; split; intros; try done; lia.
  - rewrite Hq. pose proof (Z.div_pos a b ltac:(lia) ltac:(lia)).
    split.
    + intros Hz. case_decide as H0; [|lia].
      assert (a / b = 0) as Hab by lia. lia.
    + intros ->. rewrite Z.div_0_l, Z.mod_0_l by lia.
      by rewrite decide_True.
  - apply Z.div_le_mono; lia.
Qed.

Lemma div_ceil_rounds_up_witness :
  div_ceil 7 2 = 7 / 2 + 1 ∧ div_ceil 8 2 = 8 / 2 ∧ div_ceil 7 2 ≤ div_ceil 8 2.
Proof.
  destruct (div_ceil_rounds_up 7 8 2) as (_ & _ & _ & Hle); [lia..|].
  split_and!; [reflexivity|reflexivity|exact Hle].
Defined.

End HeaderMore.

(** ** Graph: entering containment edges *)

Module ContainmentMore.
Import Graph.

(** X9. Enter and query: after [add_containment_edge u v] the query
    [has_containment_edge a b] is true for the pair just entered (if
    [u <> v]) and otherwise answers as before; the node table, the
    interference edges, the liveness table and so every other query are
    untouched. *)
Theorem has_containment_edge_after_add (g : t) (u v a b : reg_t) :
  has_containment_edge (add_containment_edge g u v) a b
  = (negb (u =? v) && (a =? u) && (b =? v)) || has_containment_edge g a b
  ∧ nodes (add_containment_edge g u v) = nodes g
  ∧ active_nodes (add_containment_edge g u v) = active_nodes g
  ∧ is_adjacent (add_containment_edge g u v) a b = is_adjacent g a b
  ∧ is_coalesceable (add_containment_edge g u v) a b = is_coalesceable g a b
  ∧ (∀ insn, get_liveness (add_containment_edge g u v) insn = get_liveness g insn).
Proof.
  destruct (Containment.add_containment_edge_others g u v) as (Hn & Hm & Hl).
  split_and!.
  - apply eq_true_iff_eq.
    rewrite Containment.has_containment_edge_true,
      Containment.elem_of_add_containment_edge, orb_true_iff, !andb_true_iff,
      negb_true_iff, !N.eqb_eq, N.eqb_neq, Containment.has_containment_edge_true.
    tauto.
  - done.
  - unfold active_nodes. by rewrite Hn.
  - unfold is_adjacent. by rewrite Hm.
  - unfold is_coalesceable, is_adjacent. by rewrite Hm.
  - intros insn. unfold get_liveness. by rewrite Hl.
Qed.

(** X10. Containment edges accumulate as a set: entering the same edge
    twice is the same as entering it once, the order in which two edges are
    entered does not matter, and no call removes an edge that was there. *)
Theorem add_containment_edge_accumulates (g : t) (u v u' v' a b : reg_t) :
  add_containment_edge (add_containment_edge g u v) u v
  = add_containment_edge g u v
  ∧ add_containment_edge (add_containment_edge g u v) u' v'
    = add_containment_edge (add_containment_edge g u' v') u v
  ∧ (has_containment_edge g a b = true →
     has_containment_edge (add_containment_edge g u v) a b = true).
Proof.
  split_and!.
  - unfold add_containment_edge. case_bool_decide; [done|].
    unfold with_containment. simpl. f_equal.
    by rewrite (assoc_L (∪)), (idemp_L (∪)).
  - unfold add_containment_edge. repeat case_bool_decide; try done.
    unfold with_containment. simpl. f_equal.
    rewrite !(assoc_L (∪)). f_equal. apply (comm_L (∪)).
  - rewrite !Containment.has_containment_edge_true,
      Containment.elem_of_add_containment_edge. by right.
Qed.

End ContainmentMore.

(* ===================================================================== *)
(** * PassManager: activation *)
(* ===================================================================== *)

Module Activation.
Import PassManager.

Lemma find_pass_Some E name registered p :
  find_pass E name registered = Some p →
  p ∈ registered ∧ pass_name E p = name.
Proof.
  induction registered as [|q rest IH]; simpl; [done|].
  case_decide as Hq.
  - intros [= <-]. split; [left|done].
  - intros [? ?]%IH. split; [by right|done].
Qed.

Lemma find_pass_None E name registered :
  find_pass E name registered = None
  ↔ ∀ p, p ∈ registered → pass_name E p ≠ name.
Proof.
  induction registered as [|q rest IH]; simpl.
  - split; [|done]. intros _ p Hp. by apply elem_of_nil in Hp.
  - case_decide as Hq.
    + split; [done|]. intros H. by destruct (H q); [left|].
    + rewrite IH. split.
      * intros H p [->|Hp]%elem_of_cons; [done|by apply H].
      * intros H p Hp. apply H. by right.
Qed.

(** The pass found is the first one of that name. *)
Lemma find_pass_first E name registered p :
  find_pass E name registered = Some p →
  ∃ i, registered !! i = Some p
       ∧ ∀ j q, (j < i)%nat → registered !! j = Some q → pass_name E q ≠ name.
Proof.
  induction registered as [|q rest IH]; simpl; [done|].
  case_decide as Hq.
  - intros [= <-]. exists 0%nat. split; [done|]. intros j q' Hj. lia.
  - intros (i & Hi & Hfirst)%IH. exists (S i). split; [done|].
    intros [|j] q' Hj; simpl; [by intros [= <-]|].
    apply Hfirst. lia.
Qed.

Lemma activate_all_Ok E names s s' :
  activate_all E names s = Ok s' →
  ∃ ps, Forall2 (λ name p, find_pass E name (m_registered_passes s) = Some p)
                names ps
        ∧ s' = logs ((λ p, ConfigurePass p (pass_name E p)) <$> ps)
                    (with_activated (m_activated_passes s ++ ps) s)
        ∧ m_registered_passes s' = m_registered_passes s.
Proof.
  revert s. induction names as [|name rest IH]; intros s; simpl.
  - intros [= <-]. exists []. split; [constructor|].
    destruct s. unfold with_activated. simpl. by rewrite app_nil_r.
  - unfold activate_pass.
    destruct (find_pass E name (m_registered_passes s)) as [p|] eqn:Hp; [|done].
    simpl. intros (ps & Hall & -> & Hreg)%IH. simpl in *.
    exists (p :: ps). split_and!; [by constructor| |done].
    destruct s. unfold logs, log, with_activated. simpl.
    by rewrite <-(assoc_L (++)).
Qed.

Lemma calls_logs es s : calls (logs es s) = calls s ++ es.
Proof.
  revert s. induction es as [|e es IH]; intros s; simpl.
  - by rewrite app_nil_r.
  - rewrite IH. simpl. by rewrite <-(assoc_L (++)).
Qed.

Lemma logs_fields es s :
  m_config (logs es s) = m_config s
  ∧ m_registered_passes (logs es s) = m_registered_passes s
  ∧ m_activated_passes (logs es s) = m_activated_passes s
  ∧ m_pass_info (logs es s) = m_pass_info s
  ∧ m_current_pass_info (logs es s) = m_current_pass_info s
  ∧ m_testing_mode (logs es s) = m_testing_mode s
  ∧ m_verify_none_mode (logs es s) = m_verify_none_mode s.
Proof.
  revert s. induction es as [|e es IH]; intros s; simpl; [done|].
  destruct (IH (log e s)) as (-> & -> & -> & -> & -> & -> & ->). done.
Qed.

Lemma activate_all_Fail E names s f :
  activate_all E names s = Fail f →
  ∃ name, name ∈ names
          ∧ find_pass E name (m_registered_passes s) = None
          ∧ f = AssertFailed ("No pass named " +:+ name +:+ "!").
Proof.
  revert s. induction names as [|name rest IH]; intros s; simpl; [done|].
  unfold activate_pass.
  destruct (find_pass E name (m_registered_passes s)) as [p|] eqn:Hp; simpl.
  - intros (n & Hn & Hf & ->)%IH. exists n. split; [by right|]. by split.
  - intros [= <-]. exists name. split; [left|]. by split.
Qed.

(** X11. Which passes a new manager activates.  Without a
    ["redex"]["passes"] member every registered pass is activated, in
    registration order, and none is configured.  With it, if construction
    succeeds, the activated passes carry exactly the configured names in
    the configured order; each of them is a registered pass, the first one
    registered under its name; [configure_pass] has been called once per
    activation, in that order, with the configuration stored under the
    name of the pass.  In both cases no pass is current and there is no
    pass info yet. *)
Theorem new_activates (E : Env) (passes : list pass_ptr) (config : Config)
    (verify_none_mode : bool) (s : t) :
  new E passes config verify_none_mode = Ok s →
  m_registered_passes s = passes
  ∧ m_current_pass_info s = None
  ∧ m_pass_info s = []
  ∧ m_verify_none_mode s = verify_none_mode
  ∧ m_testing_mode s = false
  ∧ calls s = (λ p, ConfigurePass p (pass_name E p)) <$>
                (match redex_passes config with
                 | Some _ => m_activated_passes s
                 | None => []
                 end)
  ∧ match redex_passes config with
    | None => m_activated_passes s = passes
    | Some names =>
        pass_name E <$> m_activated_passes s = names
        ∧ (∀ p, p ∈ m_activated_passes s →
                ∃ i, passes !! i = Some p
                     ∧ ∀ j q, (j < i)%nat → passes !! j = Some q →
                              pass_name E q ≠ pass_name E p)
    end.
Proof.
  unfold new, init. destruct (redex_passes config) as [names|] eqn:Hcfg.
  - intros (ps & Hall & -> & Hreg)%activate_all_Ok. simpl in *.
    destruct (logs_fields ((λ p, ConfigurePass p (pass_name E p)) <$> ps)
                (with_activated ps
                   {| m_config := config; m_registered_passes := passes;
                      m_activated_passes := []; m_pass_info := [];
                      m_current_pass_info := None; m_testing_mode := false;
                      m_verify_none_mode := verify_none_mode; calls := [] |}))
      as (_ & -> & -> & -> & -> & -> & ->).
    rewrite calls_logs. simpl. split_and!; try done.
    + clear -Hall. induction Hall as [|name p names ps Hp _ IH]; [done|].
      simpl. f_equal; [|done]. by apply find_pass_Some in Hp as [_ ->].
    + intros p Hp. apply list_elem_of_lookup in Hp as [k Hk].
      destruct (Forall2_lookup_r _ _ _ _ _ Hall Hk) as (name & _ & Hfind).
      pose proof (find_pass_Some _ _ _ _ Hfind) as [_ <-].
      by apply find_pass_first.
  - intros [= <-]. simpl. by split_and!.
Qed.

(** X12. When construction aborts.  With a ["redex"]["passes"] member the
    constructor succeeds exactly when every configured name is the name of
    a registered pass; otherwise it stops on the assertion "No pass named
    ...!" for a configured name that no registered pass has.  Without the
    member it always succeeds. *)
Theorem new_aborts_on_unknown_name (E : Env) (passes : list pass_ptr)
    (config : Config) (verify_none_mode : bool) :
  (redex_passes config = None →
   ∃ s, new E passes config verify_none_mode = Ok s)
  ∧ (∀ names, redex_passes config = Some names →
      ((∃ s, new E passes config verify_none_mode = Ok s)
       ↔ ∀ name, name ∈ names → ∃ p, p ∈ passes ∧ pass_name E p = name)
      ∧ (∀ f, new E passes config verify_none_mode = Fail f →
              ∃ name, name ∈ names
                      ∧ (∀ p, p ∈ passes → pass_name E p ≠ name)
                      ∧ f = AssertFailed ("No pass named " +:+ name +:+ "!"))).
Proof.
  unfold new, init. split.
  - intros ->. by eexists.
  - intros names ->. split.
    + split.
      * intros [s (ps & Hall & _)%activate_all_Ok] name Hn. simpl in Hall.
        apply list_elem_of_lookup in Hn as [k Hk].
        destruct (Forall2_lookup_l _ _ _ _ _ Hall Hk) as (p & _ & Hfind).
        exists p. by apply find_pass_Some in Hfind.
      * intros Hknown.
        destruct (activate_all E names _) as [s|f] eqn:Hrun; [by eexists|].
        apply activate_all_Fail in Hrun as (name & Hn & Hnone & _).
        simpl in Hnone. rewrite find_pass_None in Hnone.
        destruct (Hknown name Hn) as (p & Hp & Hname). by destruct (Hnone p Hp).
    + intros f (name & Hn & Hnone & ->)%activate_all_Fail.
      exists name. simpl in Hnone. by rewrite find_pass_None in Hnone.
Qed.

Lemma new_activates_witness :
  new PassSamples.passing PassSamples.registered PassSamples.config false
  = Ok PassSamples.fresh
  ∧ m_registered_passes PassSamples.fresh = PassSamples.registered
  ∧ m_current_pass_info PassSamples.fresh = None
  ∧ m_pass_info PassSamples.fresh = [].
Proof.
  assert (Hnew : new PassSamples.passing PassSamples.registered
                     PassSamples.config false = Ok PassSamples.fresh)
    by (by vm_compute).
  split; [exact Hnew|].
  destruct (new_activates _ _ _ _ _ Hnew) as (Hreg & Hcur & Hinfo & _).
  by split_and!.
Defined.

End Activation.

(* ===================================================================== *)
(** * PassManager: metrics *)
(* ===================================================================== *)

Module Metrics.
Import PassManager.

Lemma update_metrics_lookup i f s j :
  m_pass_info (update_metrics i f s) !! j
  = if decide (i = j)
    then (λ info, PassInfo.with_metrics (f (PassInfo.metrics info)) info)
           <$> m_pass_info s !! i
    else m_pass_info s !! j.
Proof. unfold update_metrics. simpl. apply list_lookup_alter. Qed.

Lemma update_metrics_fields i f s :
  m_config (update_metrics i f s) = m_config s
  ∧ m_registered_passes (update_metrics i f s) = m_registered_passes s
  ∧ m_activated_passes (update_metrics i f s) = m_activated_passes s
  ∧ m_current_pass_info (update_metrics i f s) = m_current_pass_info s
  ∧ calls (update_metrics i f s) = calls s
  ∧ length (m_pass_info (update_metrics i f s)) = length (m_pass_info s).
Proof. unfold update_metrics. simpl. by rewrite length_alter. Qed.

Lemma update_metrics_id i f s info :
  m_pass_info s !! i = Some info →
  f (PassInfo.metrics info) = PassInfo.metrics info →
  update_metrics i f s = s.
Proof.
  intros Hi Hf. destruct s as [c r a infos cur tm vm cl].
  unfold update_metrics, with_pass_info. simpl in *. f_equal.
  apply list_eq. intros j. rewrite list_lookup_alter.
  case_decide as Hj; [|done]. subst j. rewrite Hi. simpl. f_equal.
  destruct info. unfold PassInfo.with_metrics. simpl in *. by rewrite Hf.
Qed.

Lemma update_metrics_twice i f g s :
  update_metrics i g (update_metrics i f s) = update_metrics i (g ∘ f) s.
Proof.
  destruct s as [c r a infos cur tm vm cl].
  unfold update_metrics, with_pass_info. simpl. f_equal.
  by rewrite list_alter_alter_eq.
Qed.

Lemma update_metrics_ext i f g s :
  (∀ m, f m = g m) → update_metrics i f s = update_metrics i g s.
Proof.
  intros H. unfold update_metrics. f_equal. apply list_alter_ext; [|done].
  intros info _. by rewrite H.
Qed.

(** X13. Set and read back.  While a pass is current, [set_metric key
    value] followed by [get_metric key] returns [value] and leaves the
    manager as [set_metric] left it; the other metrics of the pass read as
    before; the metrics of the other passes and the bookkeeping of every
    pass are untouched. *)
Theorem set_metric_then_get (key key' : string) (value : Z) (s : t)
    (i : nat) (info : PassInfo.t) :
  m_current_pass_info s = Some i → m_pass_info s !! i = Some info →
  ∃ s1 info1,
    set_metric key value s = Ok s1
    ∧ get_metric key s1 = Ok (value, s1)
    ∧ m_pass_info s1 !! i = Some info1
    ∧ metric_value key info1 = value
    ∧ (key' ≠ key → metric_value key' info1 = metric_value key' info)
    ∧ same_bookkeeping info info1
    ∧ (∀ j, j ≠ i → m_pass_info s1 !! j = m_pass_info s !! j)
    ∧ m_current_pass_info s1 = Some i
    ∧ calls s1 = calls s.
Proof.
  intros Hcur Hi. unfold set_metric, get_metric. rewrite Hcur.
  set (s1 := update_metrics i (λ m, <[key:=value]> m) s).
  set (info1 := PassInfo.with_metrics (<[key:=value]> (PassInfo.metrics info)) info).
  assert (H1 : m_pass_info s1 !! i = Some info1).
  { unfold s1. rewrite update_metrics_lookup, decide_True, Hi by done. done. }
  exists s1, info1. split; [done|].
  assert (Hc1 : m_current_pass_info s1 = Some i) by done.
  rewrite Hc1, H1. unfold metric_value. simpl. rewrite lookup_insert_eq. simpl.
  split_and!; try done.
  - f_equal. f_equal. apply (update_metrics_id _ _ _ info1 H1).
    simpl. by rewrite insert_insert_eq.
  - intros Hk. by rewrite lookup_insert_ne.
  - intros j Hj. by apply list_lookup_alter_ne.
Qed.

Lemma wrap_int_add_l x y : wrap_int (wrap_int x + y) = wrap_int (x + y).
Proof.
  unfold wrap_int.
  replace ((x + 2 ^ 31) `mod` 2 ^ 32 - 2 ^ 31 + y + 2 ^ 31)%Z
    with ((x + 2 ^ 31) `mod` 2 ^ 32 + (y + 0))%Z by lia.
  rewrite Z.add_mod_idemp_l by lia. do 2 f_equal. lia.
Qed.

Lemma wrap_int_id z : is_int z → wrap_int z = z.
Proof.
  unfold is_int, wrap_int. intros Hz. rewrite Z.mod_small by lia. lia.
Qed.

Lemma wrap_int_is_int z : is_int (wrap_int z).
Proof.
  unfold is_int, wrap_int.
  pose proof (Z.mod_pos_bound (z + 2 ^ 31) (2 ^ 32)). lia.
Qed.

(** X14. Increments add up in [int].  While a pass is current,
    [incr_metric key a] makes the metric its old value (0 if it had none)
    plus [a], reduced to [int] where the sum leaves its range, and a second
    increment by [b] makes it the old value plus [a + b], reduced likewise.
    Where the sum with [a] is an [int] the metric is that sum; where
    [a + b] is an [int], incrementing by [a] and then by [b] is
    incrementing by [a + b], and setting to [a] and then incrementing by
    [b] is setting to [a + b]. *)
Theorem incr_metric_adds (key : string) (a b : Z) (s : t)
    (i : nat) (info : PassInfo.t) :
  m_current_pass_info s = Some i → m_pass_info s !! i = Some info →
  ∃ s1 s2,
    incr_metric key a s = Ok s1
    ∧ get_metric key s1 = Ok (wrap_int (metric_value key info + a), s1)
    ∧ incr_metric key b s1 = Ok s2
    ∧ get_metric key s2 = Ok (wrap_int (metric_value key info + a + b), s2)
    ∧ (is_int (metric_value key info + a) →
       get_metric key s1 = Ok ((metric_value key info + a)%Z, s1))
    ∧ (is_int (a + b) → incr_metric key (a + b) s = Ok s2)
    ∧ (is_int (a + b) →
       (set_metric key a s ≫= incr_metric key b) = set_metric key (a + b)%Z s).
Proof.
  intros Hcur Hi. unfold incr_metric, set_metric, metric_value.
  rewrite Hcur. simpl.
  set (old := default 0%Z (PassInfo.metrics info !! key)).
  set (s1 := update_metrics i _ s).
  set (s2 := update_metrics i
               (λ m, <[key := wrap_int (default 0%Z (m !! key) + b)]> m) s1).
  assert (Hc1 : m_current_pass_info s1 = Some i) by done.
  assert (Hc2 : m_current_pass_info s2 = Some i) by done.
  assert (H1 : m_pass_info s1 !! i
               = Some (PassInfo.with_metrics
                         (<[key:=wrap_int (old + a)]> (PassInfo.metrics info))
                         info)).
  { unfold s1. rewrite update_metrics_lookup, decide_True, Hi by done. done. }
  assert (H2 : m_pass_info s2 !! i
               = Some (PassInfo.with_metrics
                         (<[key:=wrap_int (old + a + b)]> (PassInfo.metrics info))
                         info)).
  { unfold s2. rewrite update_metrics_lookup, decide_True, H1 by done.
    simpl. rewrite lookup_insert_eq, insert_insert_eq. simpl.
    by rewrite wrap_int_add_l. }
  assert (Hget1 : get_metric key s1 = Ok (wrap_int (old + a), s1)).
  { unfold get_metric. rewrite Hc1, H1. simpl. rewrite lookup_insert_eq. simpl.
    do 2 f_equal. eapply update_metrics_id; [exact H1|].
    simpl. by rewrite insert_insert_eq. }
  assert (Hget2 : get_metric key s2 = Ok (wrap_int (old + a + b), s2)).
  { unfold get_metric. rewrite Hc2, H2. simpl. rewrite lookup_insert_eq. simpl.
    do 2 f_equal. eapply update_metrics_id; [exact H2|].
    simpl. by rewrite insert_insert_eq. }
  exists s1, s2. rewrite Hc1. split_and!; try done.
  - intros Hint. by rewrite Hget1, wrap_int_id.
  - intros _. f_equal. unfold s2, s1. rewrite update_metrics_twice.
    apply update_metrics_ext. intros m. simpl.
    rewrite lookup_insert_eq, insert_insert_eq. simpl.
    rewrite wrap_int_add_l. do 2 f_equal. lia.
  - intros Hint. rewrite Hcur. f_equal. rewrite update_metrics_twice.
    apply update_metrics_ext. intros m. simpl.
    rewrite lookup_insert_eq, insert_insert_eq. simpl.
    by rewrite wrap_int_id.
Qed.

(** X15. [get_metric] is not a pure read.  While a pass is current,
    asking for a metric that was never written returns 0 and enters the key
    with the value 0 in the metrics of the pass, so the pass info changes;
    asking again returns the same and changes nothing more. *)
Theorem get_metric_enters_missing_key (key : string) (s : t)
    (i : nat) (info : PassInfo.t) :
  m_current_pass_info s = Some i → m_pass_info s !! i = Some info →
  PassInfo.metrics info !! key = None →
  ∃ s1 info1,
    get_metric key s = Ok (0%Z, s1)
    ∧ m_pass_info s1 !! i = Some info1
    ∧ PassInfo.metrics info1 = <[key := 0%Z]> (PassInfo.metrics info)
    ∧ PassInfo.metrics info1 !! key = Some 0%Z
    ∧ get_pass_info s1 ≠ get_pass_info s
    ∧ get_metric key s1 = Ok (0%Z, s1).
Proof.
  intros Hcur Hi Hkey. unfold get_metric. rewrite Hcur, Hi, Hkey. simpl.
  set (s1 := update_metrics i (λ m, <[key:=0%Z]> m) s).
  set (info1 := PassInfo.with_metrics (<[key:=0%Z]> (PassInfo.metrics info)) info).
  assert (H1 : m_pass_info s1 !! i = Some info1).
  { unfold s1. rewrite update_metrics_lookup, decide_True, Hi by done. done. }
  exists s1, info1.
  assert (Hc1 : m_current_pass_info s1 = Some i) by done.
  rewrite Hc1, H1. simpl. rewrite lookup_insert_eq. simpl.
  split_and!; try done.
  - unfold get_pass_info. intros Heq.
    change (m_pass_info s1 = m_pass_info s) in Heq. rewrite Heq, Hi in H1.
    injection H1 as H1. apply (f_equal (λ x, PassInfo.metrics x !! key)) in H1.
    simpl in H1. by rewrite lookup_insert_eq, Hkey in H1.
  - f_equal. f_equal. eapply update_metrics_id; [exact H1|].
    simpl. by rewrite insert_insert_eq.
Qed.

Lemma set_metric_then_get_witness :
  m_current_pass_info PassSamples.running = Some 1%nat
  ∧ ∃ s1, set_metric "n" 5 PassSamples.running = Ok s1
          ∧ get_metric "n" s1 = Ok (5%Z, s1).
Proof.
  split; [by vm_compute|].
  destruct (m_pass_info PassSamples.running !! 1%nat) as [info|] eqn:Hi;
    [|by vm_compute in Hi].
  destruct (set_metric_then_get "n" "m" 5 PassSamples.running 1 info)
    as (s1 & info1 & Hset & Hget & _); [by vm_compute|exact Hi|].
  by exists s1.
Defined.

Lemma incr_metric_adds_witness :
  m_current_pass_info PassSamples.running = Some 1%nat
  ∧ ∃ s1 s2, incr_metric "evaluated" 2 PassSamples.running = Ok s1
             ∧ get_metric "evaluated" s1 = Ok (3%Z, s1)
             ∧ incr_metric "evaluated" 2147483647 s1 = Ok s2
             ∧ get_metric "evaluated" s2 = Ok ((-2147483646)%Z, s2).
Proof.
  split; [by vm_compute|].
  destruct (m_pass_info PassSamples.running !! 1%nat) as [info|] eqn:Hi;
    [|by vm_compute in Hi].
  destruct (incr_metric_adds "evaluated" 2 2147483647 PassSamples.running 1 info)
    as (s1 & s2 & H1 & H2 & H3 & H4 & _); [by vm_compute|exact Hi|].
  exists s1, s2. vm_compute in Hi. injection Hi as <-.
  by split_and!.
Defined.

Lemma get_metric_enters_missing_key_witness :
  m_current_pass_info PassSamples.running = Some 1%nat
  ∧ ∃ s1, get_metric "absent" PassSamples.running = Ok (0%Z, s1)
          ∧ get_pass_info s1 ≠ get_pass_info PassSamples.running.
Proof.
  split; [by vm_compute|].
  destruct (m_pass_info PassSamples.running !! 1%nat) as [info|] eqn:Hi;
    [|by vm_compute in Hi].
  destruct (get_metric_enters_missing_key "absent" PassSamples.running 1 info)
    as (s1 & info1 & Hget & _ & _ & _ & Hne & _);
    [by vm_compute|exact Hi| |by exists s1].
  vm_compute in Hi. injection Hi as <-. by vm_compute.
Defined.

End Metrics.

(* ===================================================================== *)
(** * PassManager: run_passes *)
(* ===================================================================== *)

Module Running.
Import PassManager.

Lemma same_bookkeeping_refl a : same_bookkeeping a a.
Proof. by repeat split. Qed.

Lemma same_bookkeeping_trans a b c :
  same_bookkeeping a b → same_bookkeeping b c → same_bookkeeping a c.
Proof.
  intros (? & ? & ? & ? & ?) (? & ? & ? & ? & ?).
  repeat split; congruence.
Qed.

Lemma evolves_refl E a : evolves E a a.
Proof. split; [apply same_bookkeeping_refl|done]. Qed.

Lemma evolves_trans E a b c : evolves E a b → evolves E b c → evolves E a c.
Proof.
  intros [Hab Kab] [Hbc Kbc]. split; [by eapply same_bookkeeping_trans|].
  intros HK. by rewrite Kbc, Kab.
Qed.

Lemma Forall2_evolves_refl E l : Forall2 (evolves E) l l.
Proof. induction l; constructor; [apply evolves_refl|done]. Qed.

Lemma Forall2_evolves_trans E l1 l2 l3 :
  Forall2 (evolves E) l1 l2 → Forall2 (evolves E) l2 l3 →
  Forall2 (evolves E) l1 l3.
Proof. apply Forall2_trans, evolves_trans. Qed.

Lemma same_setup_refl s : same_setup s s.
Proof. by repeat split. Qed.

Lemma same_setup_trans s1 s2 s3 :
  same_setup s1 s2 → same_setup s2 s3 → same_setup s1 s3.
Proof.
  intros (? & ? & ? & ? & ?) (? & ? & ? & ? & ?).
  repeat split; congruence.
Qed.

Lemma update_metrics_evolves E i f s :
  (keeps_pass_order E → ∀ m, f m !! PASS_ORDER_KEY = m !! PASS_ORDER_KEY) →
  Forall2 (evolves E) (m_pass_info s) (m_pass_info (update_metrics i f s)).
Proof.
  intros Hf. unfold update_metrics. simpl.
  apply Forall2_same_length_lookup. split; [by rewrite length_alter|].
  intros j a b Ha. rewrite list_lookup_alter. case_decide as Hj.
  - subst j. rewrite Ha. simpl. intros [= <-]. split; [by repeat split|].
    intros HK. simpl. by apply Hf.
  - rewrite Ha. intros [= <-]. apply evolves_refl.
Qed.

Lemma occurrences_cons p q ps :
  occurrences p (q :: ps)
  = ((if decide (q = p) then 1 else 0) + occurrences p ps)%nat.
Proof.
  unfold occurrences. rewrite filter_cons. by case_decide.
Qed.

Lemma occurrences_app p ps qs :
  occurrences p (ps ++ qs) = (occurrences p ps + occurrences p qs)%nat.
Proof. unfold occurrences. by rewrite filter_app, length_app. Qed.

Lemma count_passes_from (m : gmap pass_ptr nat) ps p :
  default 0%nat (foldl (λ m p, <[p := S (default 0%nat (m !! p))]> m) m ps !! p)
  = (default 0%nat (m !! p) + occurrences p ps)%nat
  ∧ (is_Some (m !! p) ∨ p ∈ ps →
     is_Some (foldl (λ m p, <[p := S (default 0%nat (m !! p))]> m) m ps !! p)).
Proof.
  revert m. induction ps as [|q ps IH]; intros m; simpl.
  - split; [unfold occurrences; simpl; lia|].
    intros [?|Hp]; [done|]. by apply elem_of_nil in Hp.
  - destruct (IH (<[q := S (default 0%nat (m !! q))]> m)) as [-> Hsome].
    rewrite occurrences_cons. split.
    + case_decide as Hq.
      * subst q. rewrite lookup_insert_eq. simpl. lia.
      * rewrite lookup_insert_ne by done. lia.
    + intros Hp. apply Hsome. destruct (decide (q = p)) as [->|Hq].
      * left. by rewrite lookup_insert_eq.
      * rewrite lookup_insert_ne by done.
        destruct Hp as [?|Hp]; [by left|].
        apply elem_of_cons in Hp as [->|?]; [done|by right].
Qed.

(** [pass_repeats.at(pass)] finds every activated pass, with the number of
    its activations. *)
Lemma count_passes_lookup ps p :
  p ∈ ps → count_passes ps !! p = Some (occurrences p ps).
Proof.
  intros Hp. destruct (count_passes_from ∅ ps p) as [Hn Hs].
  destruct Hs as [n Hlook]; [by right|].
  unfold count_passes. rewrite Hlook in Hn |- *. simpl in Hn.
  rewrite lookup_empty in Hn. simpl in Hn. by rewrite Hn.
Qed.

Lemma eval_iteration_spec E R i p cnt s total :
  R !! p = Some total → (i < length (m_pass_info s))%nat →
  ∃ s', eval_iteration E R i p (cnt, s)
        = Ok (<[p := S (default 0%nat (cnt !! p))]> cnt, s')
    ∧ same_setup s s'
    ∧ m_current_pass_info s' = None
    ∧ calls s' = calls s ++ [EvalPass p]
    ∧ length (m_pass_info s') = length (m_pass_info s)
    ∧ (∀ j, j ≠ i → m_pass_info s' !! j = m_pass_info s !! j)
    ∧ ∃ info, m_pass_info s' !! i = Some info
        ∧ PassInfo.pass info = Some p
        ∧ PassInfo.order info = i
        ∧ PassInfo.repeat info = default 0%nat (cnt !! p)
        ∧ PassInfo.total_repeat info = total
        ∧ PassInfo.name info
          = pass_name E p +:+ "#" +:+ pretty (S (default 0%nat (cnt !! p)))
        ∧ (keeps_pass_order E →
           PassInfo.metrics info !! PASS_ORDER_KEY = Some (Z.of_nat i)).
Proof.
  intros HR Hi. unfold eval_iteration. simpl. rewrite HR. simpl.
  eexists. split; [reflexivity|]. simpl.
  split; [by repeat split|]. split; [done|]. split; [done|].
  split; [by rewrite !length_alter|].
  split; [intros j Hj; by rewrite !list_lookup_alter_ne|].
  apply lookup_lt_is_Some in Hi as [old Hold].
  rewrite !list_lookup_alter_eq, Hold. simpl. eexists. split; [reflexivity|].
  simpl. split_and!; try done.
  intros HK. destruct (HK p
    (log (EvalPass p) (with_current (Some i) (with_pass_info
       (alter (λ info, PassInfo.mk (Some p) i (default 0%nat (cnt !! p)) total
                 (pass_name E p +:+ "#" +:+ pretty (S (default 0%nat (cnt !! p))))
                 (<[PASS_ORDER_KEY := Z.of_nat i]> (PassInfo.metrics info)))
              i (m_pass_info s)) s)))
    (<[PASS_ORDER_KEY := Z.of_nat i]> (PassInfo.metrics old))) as [-> _].
  by rewrite lookup_insert_eq.
Qed.

Lemma eval_loop_spec E R ps : ∀ i cnt s,
  (∀ p, p ∈ ps → is_Some (R !! p)) →
  (i + length ps ≤ length (m_pass_info s))%nat →
  ∃ cnt' s', eval_loop E R i ps (cnt, s) = Ok (cnt', s')
    ∧ same_setup s s'
    ∧ m_current_pass_info s'
      = match ps with [] => m_current_pass_info s | _ => None end
    ∧ calls s' = calls s ++ (EvalPass <$> ps)
    ∧ length (m_pass_info s') = length (m_pass_info s)
    ∧ (∀ j, (j < i)%nat → m_pass_info s' !! j = m_pass_info s !! j)
    ∧ ∀ k p, ps !! k = Some p →
        ∃ info, m_pass_info s' !! (i + k)%nat = Some info
          ∧ PassInfo.pass info = Some p
          ∧ PassInfo.order info = (i + k)%nat
          ∧ PassInfo.repeat info
            = (default 0%nat (cnt !! p) + occurrences p (take k ps))%nat
          ∧ R !! p = Some (PassInfo.total_repeat info)
          ∧ PassInfo.name info
            = pass_name E p +:+ "#" +:+ pretty (S (PassInfo.repeat info))
          ∧ (keeps_pass_order E →
             PassInfo.metrics info !! PASS_ORDER_KEY = Some (Z.of_nat (i + k))).
Proof.
  induction ps as [|p ps IH]; intros i cnt s HR Hlen.
  - exists cnt, s. simpl. rewrite app_nil_r.
    split_and!; first [done | apply same_setup_refl].
  - simpl in Hlen. destruct (HR p) as [total Htotal]; [left|].
    destruct (eval_iteration_spec E R i p cnt s total Htotal) as
      (s1 & Hrun & Hset1 & Hcur1 & Hcalls1 & Hlen1 & Hother1 & info1 & Hi1
          & Hpass1 & Hord1 & Hrep1 & Htot1 & Hname1 & Hkey1); [lia|].
    destruct (IH (S i) (<[p := S (default 0%nat (cnt !! p))]> cnt) s1) as
      (cnt' & s' & Hloop & Hset & Hcur & Hcalls & Hlen' & Hbelow & Hfill).
    { intros q Hq. apply HR. by right. }
    { rewrite Hlen1. lia. }
    exists cnt', s'. simpl. rewrite Hrun. simpl. rewrite Hloop.
    split; [done|]. split; [by eapply same_setup_trans|].
    split; [rewrite Hcur; by destruct ps|].
    split; [rewrite Hcalls, Hcalls1; by rewrite <-(assoc_L (++))|].
    split; [congruence|].
    split; [intros j Hj; rewrite Hbelow by lia; apply Hother1; lia|].
    intros [|k] q Hq; simpl in Hq.
    + injection Hq as <-. exists info1.
      rewrite Nat.add_0_r, Hbelow, Hi1 by lia.
      split_and!; try done.
      * rewrite Hrep1. unfold occurrences. simpl. lia.
      * congruence.
      * by rewrite Hrep1.
    + destruct (Hfill k q Hq) as
        (info & Hi & Hpass & Hord & Hrep & Htot & Hname & Hkey).
      exists info. replace (i + S k)%nat with (S i + k)%nat by lia.
      split_and!; try done.
      rewrite Hrep. simpl. rewrite occurrences_cons.
      destruct (decide (p = q)) as [->|Hpq].
      * rewrite lookup_insert_eq. simpl. lia.
      * rewrite lookup_insert_ne by done. lia.
Qed.

Lemma run_type_checker_spec E vm s :
  match run_type_checker E vm s with
  | Ok s' => s' = log (TypeCheck vm) s
  | Fail f => f = ExitFailure (calls s ++ [TypeCheck vm])
              ∧ checker_fail E (calls s ++ [TypeCheck vm]) = true
  end.
Proof.
  unfold run_type_checker. simpl.
  by destruct (checker_fail E (calls s ++ [TypeCheck vm])).
Qed.

Lemma run_iteration_spec E c i p s :
  match run_iteration E c i p s with
  | Ok s' =>
      same_setup s s'
      ∧ m_current_pass_info s' = None
      ∧ calls s' = calls s ++ run_calls E c p
      ∧ Forall2 (evolves E) (m_pass_info s) (m_pass_info s')
  | Fail f =>
      check_follows E c p = true
      ∧ f = ExitFailure (calls s ++ run_calls E c p)
      ∧ checker_fail E (calls s ++ run_calls E c p) = true
  end.
Proof.
  unfold run_iteration, run_calls.
  fold (check_follows E c p).
  set (s1 := update_metrics i _ _).
  assert (Hev : Forall2 (evolves E) (m_pass_info s) (m_pass_info s1)).
  { apply (update_metrics_evolves E i _ (log (RunPass p) (with_current (Some i) s))).
    intros HK m. apply HK. }
  destruct (check_follows E c p) eqn:Hcheck; simpl.
  - pose proof (run_type_checker_spec E (arg_verify_moves c)
                  (log BuildClassScope s1)) as Hrun.
    destruct (run_type_checker _ _ _) as [s2|f]; simpl.
    + subst s2. simpl. unfold check_calls.
      split; [by repeat split|]. split; [done|].
      split; [by rewrite <-!(assoc_L (++))|done].
    + destruct Hrun as [-> Hfail]. simpl in *. unfold check_calls.
      rewrite <-!(assoc_L (++)) in *. by simpl in *.
  - split; [by repeat split|]. by split.
Qed.

Lemma run_loop_spec E c ps : ∀ i s,
  match run_loop E c i ps s with
  | Ok s' =>
      same_setup s s'
      ∧ m_current_pass_info s'
        = match ps with [] => m_current_pass_info s | _ => None end
      ∧ calls s' = calls s ++ (ps ≫= run_calls E c)
      ∧ Forall2 (evolves E) (m_pass_info s) (m_pass_info s')
  | Fail f =>
      ∃ before p after,
        ps = before ++ p :: after
        ∧ check_follows E c p = true
        ∧ f = ExitFailure (calls s ++ (before ≫= run_calls E c)
                             ++ run_calls E c p)
        ∧ checker_fail E (calls s ++ (before ≫= run_calls E c)
                            ++ run_calls E c p) = true
  end.
Proof.
  induction ps as [|p ps IH]; intros i s; simpl.
  - rewrite app_nil_r.
    split_and!;
      first [done | apply same_setup_refl | apply Forall2_evolves_refl].
  - pose proof (run_iteration_spec E c i p s) as Hit.
    destruct (run_iteration E c i p s) as [s1|f]; simpl.
    + destruct Hit as (Hset1 & Hcur1 & Hcalls1 & Hev1).
      pose proof (IH (S i) s1) as Hrest.
      destruct (run_loop E c (S i) ps s1) as [s'|f].
      * destruct Hrest as (Hset & Hcur & Hcalls & Hev).
        split; [by eapply same_setup_trans|].
        split; [rewrite Hcur; by destruct ps|].
        split; [rewrite Hcalls, Hcalls1; by rewrite <-(assoc_L (++))|].
        by eapply Forall2_evolves_trans.
      * destruct Hrest as (before & q & after & -> & Hq & -> & Hfail).
        exists (p :: before), q, after. rewrite Hcalls1 in *. simpl.
        rewrite <-!(assoc_L (++)) in *. by split_and!.
    + destruct Hit as (Hcheck & -> & Hfail).
      exists [], p, ps. by split_and!.
Qed.

Lemma epilogue_spec E c s :
  match epilogue E c s with
  | Ok s' =>
      same_setup s s'
      ∧ m_current_pass_info s' = m_current_pass_info s
      ∧ m_pass_info s' = m_pass_info s
      ∧ calls s'
        = calls s
          ++ (if type_checker_enabled c then check_calls c else [])
          ++ outgoing_calls E
  | Fail f =>
      type_checker_enabled c = true
      ∧ f = ExitFailure (calls s ++ check_calls c)
      ∧ checker_fail E (calls s ++ check_calls c) = true
  end.
Proof.
  unfold epilogue, outgoing_calls, check_calls.
  destruct (type_checker_enabled c) eqn:Hen; simpl.
  - pose proof (run_type_checker_spec E (arg_verify_moves c)
                  (log BuildClassScope s)) as Hrun.
    destruct (run_type_checker _ _ _) as [s2|f]; simpl.
    + subst s2. case_decide; simpl.
      * split; [by repeat split|]. rewrite <-!(assoc_L (++)). by split_and!.
      * split; [by repeat split|]. rewrite <-!(assoc_L (++)). by split_and!.
    + destruct Hrun as [-> Hfail]. simpl in *.
      rewrite <-!(assoc_L (++)) in *. by simpl in *.
  - case_decide; simpl.
    + rewrite app_nil_r. split; [by repeat split|]. by split_and!.
    + split; [by repeat split|]. rewrite <-!(assoc_L (++)). by split_and!.
Qed.

Lemma prologue_spec E s :
  same_setup s (prologue E s)
  ∧ m_current_pass_info (prologue E s) = m_current_pass_info s
  ∧ m_pass_info (prologue E s) = m_pass_info s
  ∧ ∃ pre, calls (prologue E s) = calls s ++ pre
           ∧ Forall (λ e, is_pass_event e = false) pre.
Proof.
  unfold prologue. simpl.
  destruct (seeds_file_env E) as [file|]; case_decide; simpl;
    (split; [by repeat split|]); (split; [done|]); (split; [done|]);
    rewrite <-?(assoc_L (++)); simpl; eexists; (split; [reflexivity|]);
    by repeat constructor.
Qed.

Lemma run_passes_spec E s :
  match run_passes E s with
  | Ok s' =>
      (m_config s' = touch_type_checker (m_config s)
       ∧ m_registered_passes s' = m_registered_passes s
       ∧ m_activated_passes s' = m_activated_passes s
       ∧ m_testing_mode s' = m_testing_mode s
       ∧ m_verify_none_mode s' = m_verify_none_mode s)
      ∧ m_current_pass_info s'
        = match m_activated_passes s with
          | [] => m_current_pass_info s
          | _ => None
          end
      ∧ calls s'
        = calls (prologue E s)
          ++ pass_schedule E (m_config s) (m_activated_passes s)
          ++ outgoing_calls E
      ∧ length (m_pass_info s') = length (m_activated_passes s)
      ∧ ∀ i p, m_activated_passes s !! i = Some p →
          ∃ info, m_pass_info s' !! i = Some info
            ∧ PassInfo.pass info = Some p
            ∧ PassInfo.order info = i
            ∧ PassInfo.repeat info = occurrences p (take i (m_activated_passes s))
            ∧ PassInfo.total_repeat info = occurrences p (m_activated_passes s)
            ∧ PassInfo.name info
              = pass_name E p +:+ "#" +:+ pretty (S (PassInfo.repeat info))
            ∧ (keeps_pass_order E →
               PassInfo.metrics info !! PASS_ORDER_KEY = Some (Z.of_nat i))
  | Fail f =>
      type_checker_enabled (m_config s) = true
      ∧ ∃ k,
          (k ++ check_calls (m_config s))
            `prefix_of` ((m_activated_passes s ≫= run_calls E (m_config s))
                         ++ check_calls (m_config s))
          ∧ f = ExitFailure (calls (prologue E s)
                               ++ (EvalPass <$> m_activated_passes s)
                               ++ k ++ check_calls (m_config s))
          ∧ checker_fail E (calls (prologue E s)
                              ++ (EvalPass <$> m_activated_passes s)
                              ++ k ++ check_calls (m_config s)) = true
  end.
Proof.
  unfold run_passes.
  destruct (prologue_spec E s) as (Hset0 & Hcur0 & Hinfo0 & _).
  set (s0 := prologue E s) in *.
  assert (HA : m_activated_passes s0 = m_activated_passes s) by apply Hset0.
  assert (Hc0 : m_config s0 = m_config s) by apply Hset0.
  simpl. rewrite HA.
  set (A := m_activated_passes s) in *.
  set (s1 := with_pass_info _ s0).
  destruct (eval_loop_spec E (count_passes A) A 0 ∅ s1) as
    (cnt & s2 & Hloop & Hset2 & Hcur2 & Hcalls2 & Hlen2 & _ & Hfill).
  { intros p Hp. rewrite count_passes_lookup by done. by eexists. }
  { unfold s1. simpl. by rewrite length_resize. }
  rewrite Hloop. simpl.
  assert (Hc2 : m_config s2 = m_config s) by (rewrite <-Hc0; apply Hset2).
  rewrite Hc2.
  set (s2' := with_config (touch_type_checker (m_config s)) s2).
  pose proof (run_loop_spec E (m_config s) A 0 s2') as Hrun.
  change (calls s2') with (calls s2) in Hrun.
  change (m_pass_info s2') with (m_pass_info s2) in Hrun.
  change (m_current_pass_info s2') with (m_current_pass_info s2) in Hrun.
  destruct (run_loop E (m_config s) 0 A s2') as [s3|f]; simpl.
  - destruct Hrun as (Hset3 & Hcur3 & Hcalls3 & Hev3).
    pose proof (epilogue_spec E (m_config s) s3) as Hep.
    destruct (epilogue E (m_config s) s3) as [s4|f].
    + destruct Hep as (Hset4 & Hcur4 & Hinfo4 & Hcalls4).
      split.
      { destruct Hset4 as (-> & -> & -> & -> & ->).
        destruct Hset3 as (-> & -> & -> & -> & ->). simpl.
        destruct Hset2 as (_ & -> & -> & -> & ->). simpl.
        destruct Hset0 as (_ & -> & -> & -> & ->). done. }
      split.
      { rewrite Hcur4, Hcur3, Hcur2. by destruct A. }
      split.
      { rewrite Hcalls4, Hcalls3, Hcalls2. unfold pass_schedule.
        by rewrite <-!(assoc_L (++)). }
      rewrite Hinfo4.
      split.
      { rewrite <-(Forall2_length _ _ _ Hev3), Hlen2. unfold s1. simpl.
        by rewrite length_resize. }
      intros i p Hp.
      destruct (Hfill i p Hp) as
        (info & Hi & Hpass & Hord & Hrep & Htot & Hname & Hkey).
      simpl in *. rewrite lookup_empty in Hrep. simpl in Hrep.
      rewrite count_passes_lookup in Htot
        by (by eapply list_elem_of_lookup_2).
      destruct (Forall2_lookup_l _ _ _ _ _ Hev3 Hi)
        as (info' & Hi' & (Hp' & Ho' & Hr' & Ht' & Hn') & Hk').
      exists info'. split; [done|].
      rewrite <-Hp', <-Ho', <-Hr', <-Ht', <-Hn'.
      split_and!; try done; [congruence|].
      intros HK. rewrite Hk' by done. by apply Hkey.
    + destruct Hep as (Hen & -> & Hfail). split; [done|].
      exists (A ≫= run_calls E (m_config s)).
      rewrite Hcalls3, Hcalls2 in *. rewrite <-!(assoc_L (++)) in *.
      by split_and!.
  - destruct Hrun as (before & p & after & HAeq & Hcheck & -> & Hfail).
    split.
    { unfold check_follows in Hcheck. by apply andb_prop in Hcheck as [? _]. }
    exists ((before ≫= run_calls E (m_config s)) ++ [RunPass p]).
    assert (Hrc : run_calls E (m_config s) p
                  = RunPass p :: check_calls (m_config s))
      by (unfold run_calls; by rewrite Hcheck).
    rewrite Hcalls2, Hrc in *. change (calls s1) with (calls s0) in *.
    rewrite <-!(assoc_L (++)) in *. simpl in *.
    split_and!; try done.
    rewrite HAeq. rewrite bind_app. rewrite bind_cons. rewrite Hrc.
    rewrite <-!(assoc_L (++)). apply prefix_app. simpl. apply prefix_cons.
    unfold check_calls. apply prefix_cons, prefix_cons, prefix_nil.
Qed.

Lemma occurrences_take_lt p ps : ∀ i j,
  ps !! i = Some p → (i < j)%nat →
  (occurrences p (take i ps) < occurrences p (take j ps))%nat.
Proof.
  induction ps as [|q ps IH]; intros [|i] [|j] Hi Hj; simpl in *;
    try done; try lia.
  - injection Hi as ->. rewrite occurrences_cons, decide_True by done.
    unfold occurrences. simpl. lia.
  - rewrite !occurrences_cons.
    assert (Hlt : (i < j)%nat) by lia. pose proof (IH i j Hi Hlt). lia.
Qed.

Lemma occurrences_take_le p ps i :
  (occurrences p (take i ps) ≤ occurrences p ps)%nat.
Proof.
  rewrite <-(take_drop i ps) at 2. rewrite occurrences_app. lia.
Qed.

Lemma new_no_current E passes config verify_none_mode s :
  new E passes config verify_none_mode = Ok s →
  m_current_pass_info s = None ∧ m_pass_info s = [].
Proof.
  unfold new, init. destruct (redex_passes config) as [names|].
  - intros (ps & _ & -> & _)%Activation.activate_all_Ok.
    by destruct (Activation.logs_fields
                   ((λ p, ConfigurePass p (pass_name E p)) <$> ps)
                   (with_activated
                      (m_activated_passes
                         {| m_config := config; m_registered_passes := passes;
                            m_activated_passes := []; m_pass_info := [];
                            m_current_pass_info := None; m_testing_mode := false;
                            m_verify_none_mode := verify_none_mode; calls := [] |}
                       ++ ps)
                      {| m_config := config; m_registered_passes := passes;
                         m_activated_passes := []; m_pass_info := [];
                         m_current_pass_info := None; m_testing_mode := false;
                         m_verify_none_mode := verify_none_mode; calls := [] |}))
      as (_ & _ & _ & -> & -> & _).
  - by intros [= <-].
Qed.

Lemma filter_run_calls E c ps :
  filter (λ e, is_eval_or_run e = true) (ps ≫= run_calls E c) = RunPass <$> ps.
Proof.
  induction ps as [|p ps IH]; [done|].
  rewrite bind_cons, filter_app, IH. unfold run_calls, check_calls.
  by destruct (check_follows E c p).
Qed.

Lemma filter_eval_calls (ps : list pass_ptr) :
  filter (λ e, is_eval_or_run e = true) (EvalPass <$> ps) = EvalPass <$> ps.
Proof.
  induction ps as [|p ps IH]; [done|].
  rewrite fmap_cons, filter_cons. simpl. by rewrite IH.
Qed.

Lemma filter_no_pass_event l :
  Forall (λ e, is_pass_event e = false) l →
  filter (λ e, is_eval_or_run e = true) l = [].
Proof.
  induction 1 as [|e l He _ IH]; [done|].
  rewrite filter_cons, IH. by destruct e.
Qed.

Lemma occurs_app c a b : occurs c (a +:+ b) = occurs c a || occurs c b.
Proof.
  induction a as [|x a IH]; simpl; [done|]. by rewrite IH, orb_assoc.
Qed.

Lemma occurs_pretty_N_go x s :
  occurs "#"%char (pretty_N_go x s) = occurs "#"%char s.
Proof.
  revert s. induction (N.lt_wf_0 x) as [x _ IH]; intros s.
  assert (x = 0 ∨ 0 < x)%N as [->|Hx] by lia.
  - by rewrite pretty_N_go_0.
  - rewrite pretty_N_go_step by done. rewrite IH by (by apply N.div_lt).
    unfold pretty_N_char. by repeat case_match.
Qed.

(** A decimal numeral has no ["#"]. *)
Lemma occurs_pretty_nat (n : nat) : occurs "#"%char (pretty n) = false.
Proof.
  unfold pretty, pretty_nat, pretty, pretty_N. case_decide; [done|].
  by rewrite occurs_pretty_N_go.
Qed.

(** A name [n +:+ "#" +:+ d] with no ["#"] in [d] is read in one way. *)
Lemma split_at_hash n1 : ∀ n2 d1 d2,
  occurs "#"%char d1 = false → occurs "#"%char d2 = false →
  n1 +:+ "#" +:+ d1 = n2 +:+ "#" +:+ d2 → n1 = n2 ∧ d1 = d2.
Proof.
  induction n1 as [|a n1 IH]; intros [|b n2] d1 d2 H1 H2 Heq.
  - change (String "#" d1 = String "#" d2) in Heq. by injection Heq as ->.
  - change (String "#" d1 = String b (n2 +:+ String "#" d2)) in Heq.
    injection Heq as <- ->. rewrite occurs_app in H1. simpl in H1.
    by rewrite orb_true_r in H1.
  - change (String a (n1 +:+ String "#" d1) = String "#" d2) in Heq.
    injection Heq as -> <-. rewrite occurs_app in H2. simpl in H2.
    by rewrite orb_true_r in H2.
  - change (String a (n1 +:+ "#" +:+ d1) = String b (n2 +:+ "#" +:+ d2)) in Heq.
    injection Heq as <- Heq. destruct (IH n2 d1 d2 H1 H2 Heq) as [-> ->].
    done.
Qed.

Lemma find_interdex_spec E ps infos :
  Forall2 (λ p info, PassInfo.pass info = Some p) ps infos →
  match list_find (λ p, pass_name E p = INTERDEX_PASS_NAME E) ps with
  | Some (i, _) =>
      ∃ info, infos !! i = Some info
              ∧ find_interdex_metrics E infos = Ok (PassInfo.metrics info)
  | None => find_interdex_metrics E infos = Ok ∅
  end.
Proof.
  induction 1 as [|p info ps infos Hp _ IH]; simpl; [done|].
  rewrite Hp. case_decide as Hname; simpl.
  - by exists info.
  - destruct (list_find _ ps) as [[i q]|]; simpl; [|done].
    destruct IH as (info' & Hi & Hfind). by exists info'.
Qed.

(** X16. The pass info after a run.  When [run_passes] returns there is one
    info per activated pass, in activation order; the info at index [i]
    holds that pass, [i] as its order, the number of earlier activations
    of the same pass as [repeat], the number of all its activations as
    [total_repeat] (so [repeat < total_repeat]) and the name of the pass
    followed by ["#"] and the decimal numeral of [repeat + 1]. *)
Theorem run_passes_fills_pass_info (E : Env) (s s' : t) :
  run_passes E s = Ok s' →
  length (get_pass_info s') = length (m_activated_passes s)
  ∧ ∀ i p, m_activated_passes s !! i = Some p →
      ∃ info, get_pass_info s' !! i = Some info
        ∧ PassInfo.pass info = Some p
        ∧ PassInfo.order info = i
        ∧ PassInfo.repeat info = occurrences p (take i (m_activated_passes s))
        ∧ PassInfo.total_repeat info = occurrences p (m_activated_passes s)
        ∧ (PassInfo.repeat info < PassInfo.total_repeat info)%nat
        ∧ PassInfo.name info
          = pass_name E p +:+ "#" +:+ pretty (PassInfo.repeat info + 1)%nat.
Proof.
  intros Hrun. pose proof (run_passes_spec E s) as Hspec.
  rewrite Hrun in Hspec. destruct Hspec as (_ & _ & _ & Hlen & Hfill).
  split; [done|]. intros i p Hp.
  destruct (Hfill i p Hp) as (info & Hi & Hpass & Hord & Hrep & Htot & Hname & _).
  exists info. split_and!; try done.
  - rewrite Hrep, Htot.
    pose proof (occurrences_take_lt p _ i (S i) Hp (Nat.lt_succ_diag_r i)).
    pose proof (occurrences_take_le p (m_activated_passes s) (S i)). lia.
  - by rewrite Nat.add_1_r.
Qed.

Lemma run_passes_fills_pass_info_witness :
  run_passes PassSamples.passing PassSamples.fresh = Ok PassSamples.finished
  ∧ length (get_pass_info PassSamples.finished) = 4%nat
  ∧ (PassInfo.name <$> get_pass_info PassSamples.finished)
    = ["A#1"; "B#1"; "A#2"; "InterDexPass#1"].
Proof.
  assert (Hrun : run_passes PassSamples.passing PassSamples.fresh
                 = Ok PassSamples.finished) by (by vm_compute).
  split; [exact Hrun|].
  split; [|by vm_compute].
  exact (proj1 (run_passes_fills_pass_info _ _ _ Hrun)).
Defined.

(** X17. The order of the work.  When [run_passes] returns, the outside
    calls it made are: the prologue, which neither evaluates nor runs a
    pass nor checks types; [eval_pass] of every activated pass in
    activation order; then, for every activated pass in the same order,
    [run_pass] followed, where the configuration asks for it, by a fresh
    class scope and a type check; then, if the checker is configured, a
    fresh class scope and a last type check; then the outgoing classes.
    So every pass is evaluated before any pass is run. *)
Theorem run_passes_schedule (E : Env) (s s' : t) :
  run_passes E s = Ok s' →
  ∃ pre,
    calls s' = calls s ++ pre
               ++ pass_schedule E (m_config s) (m_activated_passes s)
               ++ outgoing_calls E
    ∧ Forall (λ e, is_pass_event e = false) pre
    ∧ filter (λ e, is_eval_or_run e = true)
             (pre ++ pass_schedule E (m_config s) (m_activated_passes s)
                  ++ outgoing_calls E)
      = (EvalPass <$> m_activated_passes s) ++ (RunPass <$> m_activated_passes s).
Proof.
  intros Hrun. pose proof (run_passes_spec E s) as Hspec.
  rewrite Hrun in Hspec. destruct Hspec as (_ & _ & Hcalls & _).
  destruct (prologue_spec E s) as (_ & _ & _ & pre & Hpre & Hno).
  exists pre. split; [by rewrite Hcalls, Hpre, <-(assoc_L (++))|].
  split; [done|].
  unfold pass_schedule. rewrite !filter_app.
  rewrite (filter_no_pass_event pre Hno), filter_eval_calls, filter_run_calls.
  assert (Hend : filter (λ e, is_eval_or_run e = true)
                   (if type_checker_enabled (m_config s)
                    then check_calls (m_config s) else []) = []
                 ∧ filter (λ e, is_eval_or_run e = true) (outgoing_calls E) = []).
  { unfold check_calls, outgoing_calls.
    by destruct (type_checker_enabled _); case_decide. }
  destruct Hend as [-> ->]. simpl. by rewrite !app_nil_r.
Qed.

Lemma run_passes_schedule_witness :
  run_passes PassSamples.passing PassSamples.fresh = Ok PassSamples.finished
  ∧ ∃ pre,
      calls PassSamples.finished
      = calls PassSamples.fresh ++ pre
        ++ pass_schedule PassSamples.passing (m_config PassSamples.fresh)
                         (m_activated_passes PassSamples.fresh)
        ++ outgoing_calls PassSamples.passing.
Proof.
  assert (Hrun : run_passes PassSamples.passing PassSamples.fresh
                 = Ok PassSamples.finished) by (by vm_compute).
  split; [exact Hrun|].
  destruct (run_passes_schedule _ _ _ Hrun) as (pre & Hcalls & _).
  by exists pre.
Defined.

(** X18. How a run can end early.  [pass_repeats.at(pass)] never throws
    and no assertion of the file is met: [run_passes] fails only by the
    [exit] of a failed type check, so only when ["ir_type_checker"] is
    configured.  By then every activated pass has been evaluated; the
    outside calls made up to the exit are a prefix of those of a run
    without failure and end with the fresh class scope and the check that
    failed, so no pass is run after it. *)
Theorem run_passes_stops_at_failed_check (E : Env) (s : t) (f : failure) :
  run_passes E s = Fail f →
  type_checker_enabled (m_config s) = true
  ∧ ∃ k,
      f = ExitFailure (calls (prologue E s)
                         ++ (EvalPass <$> m_activated_passes s)
                         ++ k ++ check_calls (m_config s))
      ∧ checker_fail E (calls (prologue E s)
                          ++ (EvalPass <$> m_activated_passes s)
                          ++ k ++ check_calls (m_config s)) = true
      ∧ ((EvalPass <$> m_activated_passes s) ++ k ++ check_calls (m_config s))
          `prefix_of` pass_schedule E (m_config s) (m_activated_passes s).
Proof.
  intros Hrun. pose proof (run_passes_spec E s) as Hspec.
  rewrite Hrun in Hspec. destruct Hspec as (Hen & k & Hpre & -> & Hfail).
  split; [done|]. exists k. split_and!; try done.
  unfold pass_schedule. rewrite Hen. by apply prefix_app.
Qed.

Lemma run_passes_stops_at_failed_check_witness :
  ∃ f, run_passes PassSamples.failing PassSamples.fresh = Fail f
       ∧ type_checker_enabled (m_config PassSamples.fresh) = true.
Proof.
  destruct (run_passes PassSamples.failing PassSamples.fresh) as [s'|f] eqn:Hrun;
    [by vm_compute in Hrun|].
  exists f. split; [done|].
  exact (proj1 (run_passes_stops_at_failed_check _ _ _ Hrun)).
Defined.

(** X19. Without the checker.  When the configuration has no
    ["ir_type_checker"] member, [run_passes] always returns; after the
    prologue it evaluates every activated pass in order, runs every
    activated pass in order and writes the outgoing classes, with no type
    check and no class scope computed in between. *)
Theorem run_passes_unchecked (E : Env) (s : t) :
  ir_type_checker (m_config s) = None →
  ∃ s', run_passes E s = Ok s'
        ∧ calls s' = calls (prologue E s)
                     ++ (EvalPass <$> m_activated_passes s)
                     ++ (RunPass <$> m_activated_passes s)
                     ++ outgoing_calls E.
Proof.
  intros Hnone.
  assert (Hen : type_checker_enabled (m_config s) = false).
  { unfold type_checker_enabled. rewrite Hnone.
    apply bool_decide_eq_false_2. by intros [? ?]. }
  pose proof (run_passes_spec E s) as Hspec.
  destruct (run_passes E s) as [s'|f].
  - exists s'. split; [done|]. destruct Hspec as (_ & _ & -> & _).
    assert (Hruns : m_activated_passes s ≫= run_calls E (m_config s)
                    = RunPass <$> m_activated_passes s).
    { induction (m_activated_passes s) as [|p ps IH]; [done|].
      rewrite bind_cons, IH. unfold run_calls, check_follows. by rewrite Hen. }
    unfold pass_schedule. rewrite Hen, Hruns, app_nil_r.
    by rewrite <-!(assoc_L (++)).
  - destruct Hspec as [Hen' _]. congruence.
Qed.

Lemma run_passes_unchecked_witness :
  ∃ s', run_passes PassSamples.passing PassSamples.fresh_unchecked = Ok s'
        ∧ calls s' = calls (prologue PassSamples.passing PassSamples.fresh_unchecked)
                     ++ (EvalPass <$> [1; 2; 3; 4])
                     ++ (RunPass <$> [1; 2; 3; 4])
                     ++ outgoing_calls PassSamples.passing.
Proof.
  apply (run_passes_unchecked PassSamples.passing PassSamples.fresh_unchecked).
  by vm_compute.
Defined.

(** X20. Metrics belong to a pass at work.  On a manager as the
    constructor leaves it, and again on what [run_passes] returns for it,
    no pass is current: [incr_metric] and [set_metric] stop on the
    assertion "No current pass!", and [get_metric], which has no such
    assertion, follows a null pointer. *)
Theorem metrics_need_current_pass (E : Env) (passes : list pass_ptr)
    (config : Config) (verify_none_mode : bool) (s0 : t) (key : string)
    (value : Z) :
  new E passes config verify_none_mode = Ok s0 →
  (incr_metric key value s0 = Fail (AssertFailed "No current pass!")
   ∧ set_metric key value s0 = Fail (AssertFailed "No current pass!")
   ∧ get_metric key s0 = Fail NullDereference)
  ∧ ∀ s, run_passes E s0 = Ok s →
      incr_metric key value s = Fail (AssertFailed "No current pass!")
      ∧ set_metric key value s = Fail (AssertFailed "No current pass!")
      ∧ get_metric key s = Fail NullDereference.
Proof.
  intros [Hcur _]%new_no_current.
  unfold incr_metric, set_metric, get_metric. rewrite Hcur.
  split; [done|]. intros s Hrun.
  pose proof (run_passes_spec E s0) as Hspec. rewrite Hrun in Hspec.
  destruct Hspec as (_ & Hcur' & _).
  assert (Hnone : m_current_pass_info s = None).
  { rewrite Hcur'. by destruct (m_activated_passes s0). }
  by rewrite Hnone.
Qed.

Lemma metrics_need_current_pass_witness :
  new PassSamples.passing PassSamples.registered PassSamples.config false
  = Ok PassSamples.fresh
  ∧ set_metric "n" 1 PassSamples.fresh = Fail (AssertFailed "No current pass!")
  ∧ get_metric "n" PassSamples.finished = Fail NullDereference.
Proof.
  assert (Hnew : new PassSamples.passing PassSamples.registered
                     PassSamples.config false = Ok PassSamples.fresh)
    by (by vm_compute).
  split; [exact Hnew|].
  destruct (metrics_need_current_pass PassSamples.passing _ _ _ _ "n" 1%Z Hnew)
    as [(_ & Hset & _) Hafter].
  split; [exact Hset|].
  apply (Hafter PassSamples.finished). by vm_compute.
Defined.

(** X21. The metric ["pass_order"].  If no pass writes the metric
    ["pass_order"] in its [eval_pass] or [run_pass], then after
    [run_passes] that metric of the info at index [i] is [i], the [order]
    of the info. *)
Theorem pass_order_metric (E : Env) (s s' : t) (i : nat) (info : PassInfo.t) :
  keeps_pass_order E →
  run_passes E s = Ok s' →
  get_pass_info s' !! i = Some info →
  PassInfo.metrics info !! PASS_ORDER_KEY = Some (Z.of_nat i)
  ∧ PassInfo.order info = i.
Proof.
  intros HK Hrun Hi. pose proof (run_passes_spec E s) as Hspec.
  rewrite Hrun in Hspec. destruct Hspec as (_ & _ & _ & Hlen & Hfill).
  unfold get_pass_info in Hi.
  assert (Hlt : (i < length (m_activated_passes s))%nat).
  { rewrite <-Hlen. by eapply lookup_lt_Some. }
  apply lookup_lt_is_Some in Hlt as [p Hp].
  destruct (Hfill i p Hp) as (info' & Hi' & _ & Hord & _ & _ & _ & Hkey).
  rewrite Hi in Hi'. injection Hi' as <-. split; [by apply Hkey|done].
Qed.

Lemma pass_order_metric_witness :
  keeps_pass_order PassSamples.passing
  ∧ ∃ info, get_pass_info PassSamples.finished !! 2%nat = Some info
            ∧ PassInfo.metrics info !! PASS_ORDER_KEY = Some 2%Z.
Proof.
  assert (HK : keeps_pass_order PassSamples.passing).
  { intros p s m. simpl. by rewrite !lookup_insert_ne. }
  split; [exact HK|].
  destruct (get_pass_info PassSamples.finished !! 2%nat) as [info|] eqn:Hi;
    [|by vm_compute in Hi].
  exists info. split; [done|].
  refine (proj1 (pass_order_metric PassSamples.passing PassSamples.fresh
                   PassSamples.finished 2 info HK _ Hi)).
  by vm_compute.
Defined.

(** X22. Infos are told apart.  After [run_passes] two different infos
    never agree on both the pass and [repeat]; and if different activated
    passes have different names, two different infos have different
    names. *)
Theorem pass_info_names_distinct (E : Env) (s s' : t) (i j : nat)
    (a b : PassInfo.t) :
  run_passes E s = Ok s' →
  get_pass_info s' !! i = Some a → get_pass_info s' !! j = Some b →
  i ≠ j →
  (PassInfo.pass a, PassInfo.repeat a) ≠ (PassInfo.pass b, PassInfo.repeat b)
  ∧ ((∀ p q, p ∈ m_activated_passes s → q ∈ m_activated_passes s →
             pass_name E p = pass_name E q → p = q) →
     PassInfo.name a ≠ PassInfo.name b).
Proof.
  intros Hrun Ha Hb Hij. pose proof (run_passes_spec E s) as Hspec.
  rewrite Hrun in Hspec. destruct Hspec as (_ & _ & _ & Hlen & Hfill).
  unfold get_pass_info in *.
  assert (Hi : (i < length (m_activated_passes s))%nat)
    by (rewrite <-Hlen; by eapply lookup_lt_Some).
  assert (Hj : (j < length (m_activated_passes s))%nat)
    by (rewrite <-Hlen; by eapply lookup_lt_Some).
  apply lookup_lt_is_Some in Hi as [p Hp].
  apply lookup_lt_is_Some in Hj as [q Hq].
  destruct (Hfill i p Hp) as (a' & Ha' & Hpa & _ & Hra & _ & Hna & _).
  destruct (Hfill j q Hq) as (b' & Hb' & Hpb & _ & Hrb & _ & Hnb & _).
  rewrite Ha in Ha'. injection Ha' as <-.
  rewrite Hb in Hb'. injection Hb' as <-.
  assert (Hpair : (PassInfo.pass a, PassInfo.repeat a)
                  ≠ (PassInfo.pass b, PassInfo.repeat b)).
  { rewrite Hpa, Hpb, Hra, Hrb. intros [= -> Hocc].
    destruct (Nat.lt_total i j) as [Hlt|[?|Hlt]]; [|done|].
    - pose proof (occurrences_take_lt q _ i j Hp Hlt). lia.
    - pose proof (occurrences_take_lt q _ j i Hq Hlt). lia. }
  split; [done|]. intros Hinj Hname. rewrite Hna, Hnb in Hname.
  apply split_at_hash in Hname as [Hpq Hrep]; try apply occurs_pretty_nat.
  apply (inj pretty) in Hrep. injection Hrep as Hrep.
  apply Hpair. rewrite Hpa, Hpb, Hrep. do 2 f_equal.
  apply Hinj; [by eapply list_elem_of_lookup_2..|done].
Qed.

Lemma pass_info_names_distinct_witness :
  ∃ a b, get_pass_info PassSamples.finished !! 0%nat = Some a
         ∧ get_pass_info PassSamples.finished !! 2%nat = Some b
         ∧ PassInfo.pass a = PassInfo.pass b
         ∧ (PassInfo.pass a, PassInfo.repeat a)
           ≠ (PassInfo.pass b, PassInfo.repeat b).
Proof.
  destruct (get_pass_info PassSamples.finished !! 0%nat) as [a|] eqn:Ha;
    [|by vm_compute in Ha].
  destruct (get_pass_info PassSamples.finished !! 2%nat) as [b|] eqn:Hb;
    [|by vm_compute in Hb].
  exists a, b. split; [done|]. split; [done|]. split.
  - vm_compute in Ha, Hb. by injection Ha as <-; injection Hb as <-.
  - refine (proj1 (pass_info_names_distinct PassSamples.passing
                     PassSamples.fresh PassSamples.finished 0 2 a b _ Ha Hb _));
      [by vm_compute|lia].
Defined.

(** X23. The InterDex metrics after a run.  After [run_passes],
    [get_interdex_metrics] meets no null pass; it returns the metrics of
    the info of the first activated pass whose name is
    [INTERDEX_PASS_NAME], and the empty map when no activated pass has
    that name. *)
Theorem get_interdex_metrics_after_run (E : Env) (s s' : t) :
  run_passes E s = Ok s' →
  match list_find (λ p, pass_name E p = INTERDEX_PASS_NAME E)
                  (m_activated_passes s) with
  | Some (i, _) =>
      ∃ info, get_pass_info s' !! i = Some info
              ∧ get_interdex_metrics E s' = Ok (PassInfo.metrics info)
  | None => get_interdex_metrics E s' = Ok ∅
  end.
Proof.
  intros Hrun. pose proof (run_passes_spec E s) as Hspec.
  rewrite Hrun in Hspec. destruct Hspec as (_ & _ & _ & Hlen & Hfill).
  apply find_interdex_spec.
  apply Forall2_same_length_lookup. split; [done|].
  intros i p info Hp Hi.
  destruct (Hfill i p Hp) as (info' & Hi' & Hpass & _).
  unfold get_pass_info in Hi. congruence.
Qed.

Lemma get_interdex_metrics_after_run_witness :
  ∃ info, get_pass_info PassSamples.finished !! 3%nat = Some info
          ∧ get_interdex_metrics PassSamples.passing PassSamples.finished
            = Ok (PassInfo.metrics info).
Proof.
  assert (Hrun : run_passes PassSamples.passing PassSamples.fresh
                 = Ok PassSamples.finished) by (by vm_compute).
  exact (get_interdex_metrics_after_run _ _ _ Hrun).
Defined.

Lemma eval_iteration_metrics E R i p cnt s st' old :
  eval_iteration E R i p (cnt, s) = Ok st' →
  m_pass_info s !! i = Some old →
  ∃ se info,
    m_pass_info st'.2 !! i = Some info
    ∧ PassInfo.metrics info
      = eval_pass E p se (<[PASS_ORDER_KEY := Z.of_nat i]> (PassInfo.metrics old))
    ∧ m_current_pass_info se = Some i.
Proof.
  unfold eval_iteration. simpl. destruct (R !! p) as [total|]; [|done].
  simpl. intros [= <-] Hold. simpl.
  rewrite !list_lookup_alter_eq, Hold. simpl.
  eexists _, _. split; [reflexivity|]. simpl. split; [reflexivity|]. done.
Qed.

Lemma eval_loop_metrics E R ps : ∀ i cnt s cnt' s',
  (∀ p, p ∈ ps → is_Some (R !! p)) →
  (i + length ps ≤ length (m_pass_info s))%nat →
  eval_loop E R i ps (cnt, s) = Ok (cnt', s') →
  ∀ k p old, ps !! k = Some p → m_pass_info s !! (i + k)%nat = Some old →
    ∃ se info,
      m_pass_info s' !! (i + k)%nat = Some info
      ∧ PassInfo.metrics info
        = eval_pass E p se
            (<[PASS_ORDER_KEY := Z.of_nat (i + k)]> (PassInfo.metrics old))
      ∧ m_current_pass_info se = Some (i + k)%nat.
Proof.
  induction ps as [|p ps IH]; intros i cnt s cnt' s' HR Hlen Hloop k q old Hq Hold;
    [done|].
  simpl in Hlen, Hloop.
  destruct (HR p) as [total Htotal]; [left|].
  destruct (eval_iteration_spec E R i p cnt s total Htotal) as
    (s1 & Hrun & _ & _ & _ & Hlen1 & Hother1 & _); [lia|].
  rewrite Hrun in Hloop. simpl in Hloop.
  assert (HR' : ∀ p, p ∈ ps → is_Some (R !! p)) by (intros ??; apply HR; by right).
  assert (Hlen' : (S i + length ps ≤ length (m_pass_info s1))%nat)
    by (rewrite Hlen1; lia).
  destruct (eval_loop_spec E R ps (S i) (<[p:=S (default 0%nat (cnt !! p))]> cnt)
              s1 HR' Hlen') as (cnt2 & s2 & Hloop2 & _ & _ & _ & _ & Hbelow & _).
  rewrite Hloop in Hloop2. injection Hloop2 as <- <-.
  destruct k as [|k]; simpl in Hq.
  - injection Hq as <-. rewrite Nat.add_0_r in *.
    destruct (eval_iteration_metrics E R i p cnt s _ old Hrun Hold)
      as (se & info & Hi & Hmet & Hcur).
    exists se, info. by rewrite Hbelow by lia.
  - replace (i + S k)%nat with (S i + k)%nat in * by lia.
    apply (IH (S i) _ s1 cnt' s' HR' Hlen' Hloop k q old Hq).
    rewrite Hother1 by lia. done.
Qed.

Lemma run_iteration_metrics E c i p s s' old :
  run_iteration E c i p s = Ok s' →
  m_pass_info s !! i = Some old →
  (∀ j, j ≠ i → m_pass_info s' !! j = m_pass_info s !! j)
  ∧ ∃ sr,
      m_pass_info s' !! i
      = Some (PassInfo.with_metrics (run_pass E p sr (PassInfo.metrics old)) old)
      ∧ m_current_pass_info sr = Some i.
Proof.
  unfold run_iteration. intros Hrun Hold.
  set (sr := log (RunPass p) (with_current (Some i) s)) in *.
  set (s1 := update_metrics i (run_pass E p sr) sr) in *.
  assert (Hs' : m_pass_info s' = m_pass_info s1).
  { destruct (_ && _) in Hrun; simpl in Hrun.
    - pose proof (run_type_checker_spec E (arg_verify_moves c)
                    (log BuildClassScope s1)) as Hcheck.
      destruct (run_type_checker _ _ _) as [s2|]; [|done].
      simpl in Hrun. injection Hrun as <-. by subst s2.
    - by injection Hrun as <-. }
  rewrite Hs'. unfold s1. split.
  - intros j Hj. by rewrite Metrics.update_metrics_lookup, decide_False.
  - exists sr. rewrite Metrics.update_metrics_lookup, decide_True by done.
    split; [|done]. change (m_pass_info sr) with (m_pass_info s).
    by rewrite Hold.
Qed.

Lemma run_loop_metrics E c ps : ∀ i s s',
  (i + length ps ≤ length (m_pass_info s))%nat →
  run_loop E c i ps s = Ok s' →
  (∀ j, (j < i)%nat → m_pass_info s' !! j = m_pass_info s !! j)
  ∧ ∀ k p old, ps !! k = Some p → m_pass_info s !! (i + k)%nat = Some old →
      ∃ sr,
        m_pass_info s' !! (i + k)%nat
        = Some (PassInfo.with_metrics (run_pass E p sr (PassInfo.metrics old)) old)
        ∧ m_current_pass_info sr = Some (i + k)%nat.
Proof.
  induction ps as [|p ps IH]; intros i s s' Hlen Hloop; simpl in *.
  - injection Hloop as <-. split; [done|]. by intros k p old.
  - destruct (run_iteration E c i p s) as [s1|] eqn:Hit; [|done].
    simpl in Hloop.
    destruct (lookup_lt_is_Some_2 (m_pass_info s) i) as [here Hhere]; [lia|].
    destruct (run_iteration_metrics E c i p s s1 here Hit Hhere)
      as (Hother & sr & Hi & Hcur).
    pose proof (run_iteration_spec E c i p s) as Hspec. rewrite Hit in Hspec.
    destruct Hspec as (_ & _ & _ & Hev).
    destruct (IH (S i) s1 s') as [Hbelow Hfill]; [|done|].
    { rewrite <-(Forall2_length _ _ _ Hev). lia. }
    split.
    + intros j Hj. rewrite Hbelow by lia. apply Hother. lia.
    + intros [|k] q old Hq Hold; simpl in Hq.
      * injection Hq as <-. rewrite Nat.add_0_r in *.
        exists sr. rewrite Hbelow by lia. split; [|done]. congruence.
      * replace (i + S k)%nat with (S i + k)%nat in * by lia.
        apply Hfill; [done|]. rewrite Hother by lia. done.
Qed.

(** X24. Whose metrics a pass writes.  After [run_passes] the metrics of
    the info at index [i] are what [run_pass] of the pass activated at [i]
    made of what its [eval_pass] made of the metrics the info had before
    with ["pass_order"] set to [i]; both calls were made while the info at
    [i] was the current one.  An info that [resize] did not find starts
    from no metrics; one left by an earlier run keeps its metrics as the
    starting point. *)
Theorem metrics_written_by_own_pass (E : Env) (s s' : t) (i : nat)
    (p : pass_ptr) :
  run_passes E s = Ok s' →
  m_activated_passes s !! i = Some p →
  ∃ se sr info,
    get_pass_info s' !! i = Some info
    ∧ m_current_pass_info se = Some i
    ∧ m_current_pass_info sr = Some i
    ∧ PassInfo.metrics info
      = run_pass E p sr
          (eval_pass E p se
             (<[PASS_ORDER_KEY := Z.of_nat i]>
                (default ∅ (PassInfo.metrics <$> m_pass_info s !! i)))).
Proof.
  intros Hrun Hp. unfold run_passes in Hrun.
  destruct (prologue_spec E s) as (Hset0 & _ & Hinfo0 & _).
  set (s0 := prologue E s) in *.
  assert (HA : m_activated_passes s0 = m_activated_passes s) by apply Hset0.
  simpl in Hrun. rewrite HA, Hinfo0 in Hrun.
  set (A := m_activated_passes s) in *.
  set (s1 := with_pass_info _ s0) in Hrun.
  assert (HR : ∀ p, p ∈ A → is_Some (count_passes A !! p)).
  { intros q Hq. rewrite count_passes_lookup by done. by eexists. }
  assert (Hlen1 : (0 + length A ≤ length (m_pass_info s1))%nat).
  { unfold s1. simpl. by rewrite length_resize. }
  destruct (eval_loop E (count_passes A) 0 A (∅, s1)) as [[cnt s2]|] eqn:Heval;
    [|done].
  simpl in Hrun.
  destruct (run_loop E (m_config s2) 0 A
              (with_config (touch_type_checker (m_config s2)) s2))
    as [s3|] eqn:Hloop; [|done].
  simpl in Hrun.
  pose proof (epilogue_spec E (m_config s2) s3) as Hep. rewrite Hrun in Hep.
  destruct Hep as (_ & _ & Hinfo & _).
  assert (Hi : (i < length A)%nat) by (by eapply lookup_lt_Some).
  set (old := default PassInfo.initial (m_pass_info s !! i)).
  assert (Hold : m_pass_info s1 !! (0 + i)%nat = Some old).
  { unfold s1, old. simpl.
    destruct (decide (i < length (m_pass_info s))%nat) as [Hlt|Hge].
    - rewrite lookup_resize by done.
      by destruct (lookup_lt_is_Some_2 _ _ Hlt) as [x ->].
    - rewrite lookup_resize_new by lia.
      by rewrite (lookup_ge_None_2 (m_pass_info s) i) by lia. }
  destruct (eval_loop_metrics E _ A 0 ∅ s1 cnt s2 HR Hlen1 Heval i p old Hp Hold)
    as (se & info2 & Hi2 & Hmet2 & Hcur2).
  destruct (eval_loop_spec E _ A 0 ∅ s1 HR Hlen1)
    as (? & ? & Heval' & _ & _ & _ & Hlen2 & _).
  rewrite Heval in Heval'. injection Heval' as <- <-.
  destruct (run_loop_metrics E (m_config s2) A 0
              (with_config (touch_type_checker (m_config s2)) s2) s3)
    as [_ Hfill]; [simpl; lia|done|].
  destruct (Hfill i p info2 Hp Hi2) as (sr & Hi3 & Hcur3).
  exists se, sr, (PassInfo.with_metrics
                    (run_pass E p sr (PassInfo.metrics info2)) info2).
  unfold get_pass_info. rewrite Hinfo. split; [exact Hi3|].
  split; [done|]. split; [done|]. simpl. rewrite Hmet2. do 3 f_equal.
  unfold old. by destruct (m_pass_info s !! i).
Qed.

Lemma metrics_written_by_own_pass_witness :
  ∃ se sr info,
    get_pass_info PassSamples.finished !! 1%nat = Some info
    ∧ m_current_pass_info se = Some 1%nat
    ∧ m_current_pass_info sr = Some 1%nat
    ∧ PassInfo.metrics info
      = run_pass PassSamples.passing 2 sr
          (eval_pass PassSamples.passing 2 se
             (<[PASS_ORDER_KEY := 1%Z]>
                (default ∅ (PassInfo.metrics <$> m_pass_info PassSamples.fresh !! 1%nat)))).
Proof.
  apply (metrics_written_by_own_pass PassSamples.passing PassSamples.fresh
           PassSamples.finished 1 2); by vm_compute.
Defined.

(** X25. What a run leaves in the configuration.  [run_passes] reads
    [m_config["ir_type_checker"]] on the manager's own configuration, which
    enters the member when there is none.  So a configuration that had the
    member is unchanged by a run, and one that had none has a null member
    afterwards: on such a manager the checker counts as configured from
    then on, and a later [run_passes] makes no type check after a pass but
    makes the final one, without [verify_moves].  The activated passes and
    the ["redex"]["passes"] member are as before. *)
Theorem run_passes_enters_type_checker_member (E : Env) (s s' : t) :
  run_passes E s = Ok s' →
  m_config s' = touch_type_checker (m_config s)
  ∧ type_checker_enabled (m_config s') = true
  ∧ redex_passes (m_config s') = redex_passes (m_config s)
  ∧ m_activated_passes s' = m_activated_passes s
  ∧ (is_Some (ir_type_checker (m_config s)) → m_config s' = m_config s)
  ∧ (ir_type_checker (m_config s) = None →
     pass_schedule E (m_config s') (m_activated_passes s')
     = (EvalPass <$> m_activated_passes s)
       ++ (RunPass <$> m_activated_passes s)
       ++ [BuildClassScope; TypeCheck false]).
Proof.
  intros Hrun. pose proof (run_passes_spec E s) as Hspec.
  rewrite Hrun in Hspec. destruct Hspec as ((Hc & _ & HA & _) & _).
  rewrite Hc, HA. unfold touch_type_checker.
  destruct (ir_type_checker (m_config s)) as [args|] eqn:Hargs.
  - split; [done|]. split.
    { unfold type_checker_enabled. rewrite Hargs.
      apply bool_decide_eq_true_2. by eexists. }
    by split_and!.
  - split; [done|]. split; [done|]. split; [done|]. split; [done|].
    split; [by intros [? ?]|]. intros _.
    set (c := {| redex_passes := redex_passes (m_config s);
                 ir_type_checker :=
                   Some {| run_after_each_pass := None; verify_moves := None;
                           run_after_passes := [] |} |}).
    assert (Hruns : m_activated_passes s ≫= run_calls E c
                    = RunPass <$> m_activated_passes s).
    { clear HA. induction (m_activated_passes s) as [|p ps IH]; [done|].
      rewrite bind_cons, IH. by unfold run_calls, check_follows. }
    unfold pass_schedule. by rewrite Hruns.
Qed.

Lemma run_passes_enters_type_checker_member_witness :
  run_passes PassSamples.passing PassSamples.fresh_unchecked
  = Ok PassSamples.finished_unchecked
  ∧ type_checker_enabled (m_config PassSamples.fresh_unchecked) = false
  ∧ type_checker_enabled (m_config PassSamples.finished_unchecked) = true.
Proof.
  assert (Hrun : run_passes PassSamples.passing PassSamples.fresh_unchecked
                 = Ok PassSamples.finished_unchecked) by (by vm_compute).
  split; [exact Hrun|]. split; [by vm_compute|].
  exact (proj1 (proj2 (run_passes_enters_type_checker_member _ _ _ Hrun))).
Defined.

End Running.
